(** * Redis-Go: RESP codec, command handlers, append-only file

    A shallow embedding of [resp.go], [handler.go], [aof.go] and the
    request loop of [main.go], followed by the properties of the
    specification that were checked against it.

    Conventions of the embedding.
    - A Go [string] is a [string] (a sequence of 8-bit characters), a Go
      [[]byte] is a [list ascii]; a Go [int] is a [Z] (64-bit platform).
    - A Go [map[string]T] is a [gmap string T].
    - A reader ([bufio.Reader] over a file or a connection) is the list of
      the bytes not yet consumed together with the number of them that
      are in its buffer; the only read error is [io.EOF].
    - Handlers work on the package-level maps [SETs] and [HSETs]; they are
      modelled by explicit state passing over a [Store].  Locks are not
      modelled: every handler runs to completion on its own. *)

From Stdlib Require Import ZArith Ascii String List Lia DecimalString.
From Stdlib Require DecimalZ DecimalPos DecimalN.
From stdpp Require Import base option list gmap strings fin_maps.

#[local] Open Scope Z_scope.
#[local] Open Scope list_scope.

(** ** resp.go *)

Module Resp.

Abbreviation byte := ascii.

Definition STRING : byte := "+"%char.
Definition ERROR : byte := "-"%char.
Definition INTEGER : byte := ":"%char.
Definition BULK : byte := "$"%char.
Definition ARRAY : byte := "*"%char.

Definition CR : byte := "013"%char.
Definition LF : byte := "010"%char.

(** [type Value struct { typ string; str string; num int; bulk string;
    array []Value }] *)
#[warnings="-register-all"]
Inductive Value : Type :=
  mkValue { typ : string; str : string; num : Z; bulk : string;
            array : list Value }.

(** The zero value [Value{}]. *)
Definition zeroValue : Value := mkValue "" "" 0 "" [].

(** Composite literals used by the code, one per kind. *)
Definition stringV (s : string) : Value := mkValue "string" s 0 "" [].
Definition errorV (s : string) : Value := mkValue "error" s 0 "" [].
Definition integerV (n : Z) : Value := mkValue "integer" "" n "" [].
Definition bulkV (s : string) : Value := mkValue "bulk" "" 0 s [].
Definition arrayV (l : list Value) : Value := mkValue "array" "" 0 "" l.
Definition nullV : Value := mkValue "null" "" 0 "" [].

(** [[]byte(s)] and [string(b)]. *)
Definition bytes (s : string) : list byte := list_ascii_of_string s.
Definition string_of_bytes (b : list byte) : string := string_of_list_ascii b.

(** [len(s)] for a string, as a Go int. *)
Definition len (s : string) : Z := Z.of_nat (String.length s).

(** [strconv.Itoa]: the decimal text of an int, ["-"] first when it is
    negative, no leading zero. *)
Definition Itoa (n : Z) : string := NilEmpty.string_of_int (Z.to_int n).

(** [strconv.ParseInt(s, 10, 64)] *)
Inductive NumError : Type := ErrSyntax | ErrRange.

Definition isDigit (c : byte) : bool :=
  (48 <=? nat_of_ascii c)%nat && (nat_of_ascii c <=? 57)%nat.

Definition digitVal (c : byte) : Z := Z.of_nat (nat_of_ascii c) - 48.

Definition maxUint64 : Z := 2 ^ 64 - 1.

(** The digit loop of [ParseUint]: [n = n*10 + d], a range error as soon
    as the value no longer fits 64 bits, a syntax error at a byte that is
    no digit. *)
Fixpoint parseDigits (s : list byte) (n : Z) : NumError + Z :=
  match s with
  | [] => inr n
  | c :: s' =>
      if isDigit c then
        let n1 := n * 10 + digitVal c in
        if maxUint64 <? n1 then inl ErrRange else parseDigits s' n1
      else inl ErrSyntax
  end.

Definition ParseUint (s : list byte) : NumError + Z :=
  match s with
  | [] => inl ErrSyntax
  | _ => parseDigits s 0
  end.

Definition ParseInt (s : list byte) : NumError + Z :=
  match s with
  | [] => inl ErrSyntax
  | c :: s' =>
      let neg := Ascii.eqb c "-" in
      let s0 := if Ascii.eqb c "+" || neg then s' else s in
      match ParseUint s0 with
      | inl e => inl e
      | inr un =>
          if negb neg && (2 ^ 63 <=? un) then inl ErrRange
          else if neg && (2 ^ 63 <? un) then inl ErrRange
          else inr (if neg then - un else un)
      end
  end.

(** *** Marshal *)

Definition marshalString (v : Value) : list byte :=
  [STRING] ++ bytes (str v) ++ [CR; LF].

Definition marshalBulk (v : Value) : list byte :=
  [BULK] ++ bytes (Itoa (len (bulk v))) ++ [CR; LF]
         ++ bytes (bulk v) ++ [CR; LF].

Definition marshallError (v : Value) : list byte :=
  [ERROR] ++ bytes (str v) ++ [CR; LF].

Definition marshallNull (v : Value) : list byte :=
  bytes "$-1" ++ [CR; LF].

(** [Marshal] with [marshalArray] inlined: the two are mutually
    recursive in the source, the loop over [v.array] is [flat_map]. *)
Fixpoint Marshal (v : Value) : list byte :=
  match v with
  | mkValue t _ _ _ a =>
      if (t =? "array")%string then
        [ARRAY] ++ bytes (Itoa (Z.of_nat (length a))) ++ [CR; LF]
                ++ flat_map Marshal a
      else if (t =? "bulk")%string then marshalBulk v
      else if (t =? "string")%string then marshalString v
      else if (t =? "null")%string then marshallNull v
      else if (t =? "error")%string then marshallError v
      else []
  end.

Definition marshalArray (v : Value) : list byte :=
  [ARRAY] ++ bytes (Itoa (Z.of_nat (length (array v)))) ++ [CR; LF]
          ++ flat_map Marshal (array v).

(** *** The reader *)

(** [bufio.NewReader] gives the reader a buffer of [defaultBufSize]
    bytes. *)
Definition bufSize : nat := 4096.

(** A [Resp] (a [bufio.Reader]): the bytes not yet consumed, and how many
    of them, from the first on, are held in the buffer.  The reader
    beneath hands over as many bytes as it is asked for while it has
    them, as a file does, and then reports [io.EOF]. *)
Record Reader : Type := mkReader {
  stream : list byte;
  buffered : nat
}.

Definition NewResp (rd : list byte) : Reader := mkReader rd 0.

(** The bytes in the buffer once [fill] has run on an empty buffer. *)
Definition afterFill (s : list byte) (k : nat) : nat :=
  if (k =? 0)%nat then Nat.min bufSize (length s) else k.

(** [bufio.Reader.Read(p)] for [n = len(p)]: the bytes copied into [p]
    and the reader afterwards.  Bytes come from the buffer alone when it
    is not empty; an empty buffer is filled by one read, or skipped by
    one read straight into [p] when [p] is at least as large. *)
Definition ReadN (n : nat) (s : list byte) (k : nat) : list byte * Reader :=
  if (n =? 0)%nat then ([], mkReader s k)
  else if (k =? 0)%nat && (bufSize <=? n)%nat then
    (firstn n s, mkReader (skipn n s) 0)
  else
    let k0 := afterFill s k in
    let m := Nat.min n k0 in
    (firstn m s, mkReader (skipn m s) (k0 - m)).

Inductive error : Type :=
  | EOF
  | ErrNum (e : NumError).

(** [readLine]: bytes are read one by one ([ReadByte]) and appended to
    [line] until the byte before the last one is a carriage return; the
    line is returned without its last two bytes.  At the end of the input
    the error is [io.EOF].  The byte count [n] of the source is dropped:
    no caller looks at it. *)
Fixpoint readLine_from (line : list byte) (s : list byte) (k : nat)
  : (error + list byte) * Reader :=
  match s with
  | [] => (inl EOF, mkReader [] k)
  | b :: s' =>
      let k' := (afterFill s k - 1)%nat in
      let line' := line ++ [b] in
      if (2 <=? length line')%nat
         && Ascii.eqb (nth (length line' - 2) line' "000"%char) CR
      then (inr (firstn (length line' - 2) line'), mkReader s' k')
      else readLine_from line' s' k'
  end.

Definition readLine (r : Reader) : (error + list byte) * Reader :=
  readLine_from [] (stream r) (buffered r).

Definition readInteger (r : Reader) : (error + Z) * Reader :=
  match readLine r with
  | (inl e, r') => (inl e, r')
  | (inr line, r') =>
      match ParseInt line with
      | inl e => (inl (ErrNum e), r')
      | inr i64 => (inr i64, r')
      end
  end.

(** What a call of [Read], [readArray] or [readBulk] does: it returns
    [(v, nil)] and leaves the reader at [rest], or it returns [(v, err)],
    or it panics. *)
Inductive result : Type :=
  | Done (v : Value) (rest : Reader)
  | Fail (v : Value) (e : error)
  | Panic.

(** [readBulk].  [make([]byte, len)] panics for a negative [len]; the
    buffer is zero-filled, and [r.reader.Read(bulk)] is called once, so
    the bytes a short read does not reach stay zero.  The errors of that
    read and of the last [readLine] are ignored by the source. *)
Definition readBulk (r : Reader) : result :=
  match readInteger r with
  | (inl e, _) => Fail (mkValue "bulk" "" 0 "" []) e
  | (inr n, r') =>
      if n <? 0 then Panic
      else
        let k := Z.to_nat n in
        let '(data, r'') := ReadN k (stream r') (buffered r') in
        let bulk := data ++ repeat "000"%char (k - length data) in
        Done (mkValue "bulk" "" 0 (string_of_bytes bulk) [])
             (snd (readLine r''))
  end.

(** [Read] and the loop of [readArray].  [fuel] bounds the depth of the
    recursion; [None] is "not enough fuel", never a behaviour of the
    code. *)
Fixpoint Read (fuel : nat) (s : list byte) (k : nat) : option result :=
  match fuel with
  | O => None
  | S f =>
      match s with
      | [] => Some (Fail zeroValue EOF)
      | _type :: s' =>
          let r := mkReader s' (afterFill s k - 1) in
          if Ascii.eqb _type ARRAY then
            match readInteger r with
            | (inl e, _) => Some (Fail (mkValue "array" "" 0 "" []) e)
            | (inr n, r') => readArray_loop f n 0 [] (stream r') (buffered r')
            end
          else if Ascii.eqb _type BULK then Some (readBulk r)
          else Some (Done zeroValue r)
      end
  end
with readArray_loop (fuel : nat) (n i : Z) (acc : list Value)
                    (s : list byte) (k : nat) : option result :=
  match fuel with
  | O => None
  | S f =>
      if i <? n then
        match Read f s k with
        | None => None
        | Some (Done val r') =>
            readArray_loop f n (i + 1) (acc ++ [val]) (stream r') (buffered r')
        | Some (Fail _ e) => Some (Fail (mkValue "array" "" 0 "" acc) e)
        | Some Panic => Some Panic
        end
      else Some (Done (mkValue "array" "" 0 "" acc) (mkReader s k))
  end.

Definition readArray (fuel : nat) (r : Reader) : option result :=
  match readInteger r with
  | (inl e, _) => Some (Fail (mkValue "array" "" 0 "" []) e)
  | (inr n, r') => readArray_loop fuel n 0 [] (stream r') (buffered r')
  end.

(** Fuel that is always enough (lemma [decode_total] below). *)
Definition fuel_for (s : list byte) : nat := (2 * length s + 2)%nat.

(** [r.Read()] *)
Definition decode (r : Reader) : option result :=
  Read (fuel_for (stream r)) (stream r) (buffered r).

End Resp.

Import Resp.

(** A Go call that either returns or panics. *)
Inductive outcome (A : Type) : Type :=
  | Ret (a : A)
  | Panicked.
Arguments Ret {A} a.
Arguments Panicked {A}.

(** ** handler.go *)

Module Handler.

(** The package-level maps [SETs] and [HSETs]. *)
Record Store : Type := mkStore {
  SETs : gmap string string;
  HSETs : gmap string (gmap string string)
}.

Definition emptyStore : Store := mkStore ∅ ∅.

Abbreviation handler := (list Value → Store → Value * Store).

Definition ping : handler := λ args st,
  match args with
  | [] => (stringV "PONG", st)
  | a0 :: _ => (stringV (bulk a0), st)
  end.

Definition set : handler := λ args st,
  match args with
  | [a0; a1] =>
      let key := bulk a0 in
      let value := bulk a1 in
      (stringV "OK", mkStore (<[key := value]> (SETs st)) (HSETs st))
  | _ => (errorV "ERR wrong number of arguments for 'set' command", st)
  end.

Definition get : handler := λ args st,
  match args with
  | [a0] =>
      let key := bulk a0 in
      match SETs st !! key with
      | None => (nullV, st)
      | Some value => (bulkV value, st)
      end
  | _ => (errorV "ERR wrong number of arguments for 'get' command", st)
  end.

(** [HSETs[hash][key] = value] updates the inner map in place; the inner
    map is reachable only through [HSETs], so the update is an insert of
    the updated inner map. *)
Definition hset : handler := λ args st,
  match args with
  | [a0; a1; a2] =>
      let hash := bulk a0 in
      let key := bulk a1 in
      let value := bulk a2 in
      let H1 := match HSETs st !! hash with
                | None => <[hash := ∅]> (HSETs st)
                | Some _ => HSETs st
                end in
      let H2 := <[hash := <[key := value]> (default ∅ (H1 !! hash))]> H1 in
      (stringV "OK", mkStore (SETs st) H2)
  | _ => (errorV "ERR wrong number of arguments for 'hset' command", st)
  end.

(** [HSETs[hash][key]]: a missing [hash] yields the nil map, which reads
    as the empty map. *)
Definition hget : handler := λ args st,
  match args with
  | [a0; a1] =>
      let hash := bulk a0 in
      let key := bulk a1 in
      match default ∅ (HSETs st !! hash) !! key with
      | None => (nullV, st)
      | Some value => (bulkV value, st)
      end
  | _ => (errorV "ERR wrong number of arguments for 'hget' command", st)
  end.

Section Range.

(** [for k, v := range value] visits every entry of the map once, in an
    order Go leaves unspecified: the order is a parameter. *)
Variable rangeOrder : gmap string string → list (string * string).

Definition hgetall : handler := λ args st,
  match args with
  | [a0] =>
      let hash := bulk a0 in
      match HSETs st !! hash with
      | None => (nullV, st)
      | Some value =>
          let values :=
            fold_left (λ values kv, (values ++ [bulkV kv.1]) ++ [bulkV kv.2])
                      (rangeOrder value) [] in
          (arrayV values, st)
      end
  | _ => (errorV "ERR wrong number of arguments for 'hgetall' command", st)
  end.

End Range.

(** The loop of [del]: a key found in [SETs] is deleted there and the
    loop goes on to the next argument ([continue]); [HSETs] is looked at
    only for a key that is not in [SETs]. *)
Fixpoint del_loop (args : list Value) (st : Store) (deletedCount : Z)
  : Store * Z :=
  match args with
  | [] => (st, deletedCount)
  | arg :: rest =>
      let key := bulk arg in
      match SETs st !! key with
      | Some _ =>
          del_loop rest (mkStore (delete key (SETs st)) (HSETs st))
                   (deletedCount + 1)
      | None =>
          match HSETs st !! key with
          | Some _ =>
              del_loop rest (mkStore (SETs st) (delete key (HSETs st)))
                       (deletedCount + 1)
          | None => del_loop rest st deletedCount
          end
      end
  end.

Definition del : handler := λ args st,
  if (length args <? 1)%nat then
    (errorV "ERR wrong number of arguments for 'del' command", st)
  else
    let '(st', deletedCount) := del_loop args st 0 in
    (stringV (Itoa deletedCount), st').

(** [var Handlers = map[string]func([]Value) Value{...}] *)
Definition Handlers (rangeOrder : gmap string string → list (string * string))
  : gmap string handler :=
  list_to_map [("PING", ping); ("SET", set); ("GET", get); ("HSET", hset);
               ("HGET", hget); ("HGETALL", hgetall rangeOrder); ("DEL", del)].

End Handler.

(** ** aof.go *)

Module Aof.

(** [Write]: the marshalled value is written at the end of the file (the
    offset of the file is its end once [Read] has run through it). *)
Definition Write (file : list byte) (value : Value) : list byte :=
  file ++ Marshal value.

(** [Read]: a reader is put on the start of the file, values are decoded
    and handed to [fn] until a decode error; [io.EOF] ends the loop with
    a nil error, any other error is returned.  [S] is the state [fn]
    works on. *)
Fixpoint Read_loop {S : Type} (fuel : nat) (fn : Value → S → outcome S)
                   (reader : Reader) (st : S)
  : option (outcome (option error * S)) :=
  match fuel with
  | O => None
  | Datatypes.S f =>
      match Resp.decode reader with
      | None => None
      | Some (Fail _ EOF) => Some (Ret (None, st))
      | Some (Fail _ e) => Some (Ret (Some e, st))
      | Some Panic => Some Panicked
      | Some (Done value reader') =>
          match fn value st with
          | Panicked => Some Panicked
          | Ret st' => Read_loop f fn reader' st'
          end
      end
  end.

Definition Read {S : Type} (fn : Value → S → outcome S)
                (file : list byte) (st : S)
  : option (outcome (option error * S)) :=
  Read_loop (Datatypes.S (length file)) fn (NewResp file) st.

End Aof.

(** ** main.go *)

Module Main.

Import Handler.

Definition isLower (c : byte) : bool :=
  (97 <=? nat_of_ascii c)%nat && (nat_of_ascii c <=? 122)%nat.

Definition upperByte (c : byte) : byte :=
  if isLower c then ascii_of_nat (nat_of_ascii c - 32) else c.

Fixpoint mapBytes (f : byte → byte) (s : string) : string :=
  match s with
  | EmptyString => EmptyString
  | String c s' => String (f c) (mapBytes f s')
  end.

Fixpoint allBytes (p : byte → bool) (s : string) : bool :=
  match s with
  | EmptyString => true
  | String c s' => p c && allBytes p s'
  end.

Section Server.

Variable rangeOrder : gmap string string → list (string * string).

(** [strings.ToUpper] maps a string with a byte above 127 through the
    Unicode case tables, which are not part of this repository: that
    branch is a parameter. *)
Variable unicodeUpper : string → string.

Definition ToUpper (s : string) : string :=
  let isASCII := allBytes (λ c, (nat_of_ascii c <? 128)%nat) s in
  let hasLower := negb (allBytes (λ c, negb (isLower c)) s) in
  if isASCII then
    if hasLower then mapBytes upperByte s else s
  else unicodeUpper s.

(** The callback [main] hands to [aof.Read].  [value.array[0]] panics on
    an empty array. *)
Definition replay (value : Value) (st : Store) : outcome Store :=
  match array value with
  | [] => Panicked
  | v0 :: args =>
      let command := ToUpper (bulk v0) in
      match Handlers rangeOrder !! command with
      | None => Ret st
      | Some handler => Ret (handler args st).2
      end
  end.

(** What the request loop works on: the two maps, the bytes of
    [database.aof], and the bytes written to the connection so far. *)
Record Server : Type := mkServer {
  store : Store;
  aof : list byte;
  conn : list byte
}.

(** [NewWriter(conn).Write(v)] *)
Definition Writer_Write (out : list byte) (v : Value) : list byte :=
  out ++ Marshal v.

(** One turn of the request loop, from the value [resp.Read()] returned
    without error to the next turn.  Reading the request off the
    connection is not part of it. *)
Definition handle (value : Value) (srv : Server) : Server :=
  if negb (typ value =? "array")%string then srv
  else
    match array value with
    | [] => srv
    | v0 :: args =>
        let command := ToUpper (bulk v0) in
        match Handlers rangeOrder !! command with
        | None =>
            mkServer (store srv) (aof srv)
                     (Writer_Write (conn srv) (stringV ""))
        | Some handler =>
            let aof' :=
              if (command =? "SET")%string || (command =? "HSET")%string
              then Aof.Write (aof srv) value
              else aof srv in
            let '(result, store') := handler args (store srv) in
            mkServer store' aof' (Writer_Write (conn srv) result)
        end
    end.

(** The request loop on the values that arrive, one per turn. *)
Definition serve (values : list Value) (srv : Server) : Server :=
  fold_left (λ srv value, handle value srv) values srv.

(** The start of [main]: the file is replayed into the empty maps. *)
Definition startup (file : list byte) : option (outcome (option error * Store)) :=
  Aof.Read replay file emptyStore.

End Server.

End Main.

Import Handler Main.

(** * Definitions used by the statements *)

(** A field of a hash and its value, as HGETALL lays them out. *)
Definition fieldValue (kv : string * string) : list Value :=
  [bulkV kv.1; bulkV kv.2].

(** The keys a DEL names. *)
Abbreviation keysOf args := (bulk <$> args).

(** Requests. *)
Definition SET_a_1 : Value := arrayV [bulkV "SET"; bulkV "a"; bulkV "1"].
Definition HSET_h_f_2 : Value :=
  arrayV [bulkV "HSET"; bulkV "h"; bulkV "f"; bulkV "2"].
Definition SET_a_3 : Value := arrayV [bulkV "SET"; bulkV "a"; bulkV "3"].
Definition DEL_a : Value := arrayV [bulkV "DEL"; bulkV "a"].

(** Maps in which k is a scalar and a hash. *)
Definition both_k : Store :=
  mkStore (<["k" := "v"]> ∅) (<["k" := <["f" := "w"]> ∅]> ∅).

(** The requests that [handle] writes to the file. *)
Definition logged (unicodeUpper : string → string) (value : Value) : bool :=
  (typ value =? "array")%string &&
  match array value with
  | [] => false
  | v0 :: _ =>
      let command := ToUpper unicodeUpper (bulk v0) in
      (command =? "SET")%string || (command =? "HSET")%string
  end.

(** A tree of BulkString and Array nodes, each as the code builds it. *)
Fixpoint bulkArrayTree (v : Value) : bool :=
  match v with
  | mkValue t s n b a =>
      if (t =? "bulk")%string then
        (s =? "")%string && (n =? 0) && match a with [] => true | _ => false end
      else if (t =? "array")%string then
        (s =? "")%string && (n =? 0) && (b =? "")%string
        && forallb bulkArrayTree a
      else false
  end.

(** Every length in the tree is a Go int. *)
Fixpoint goSized (v : Value) : bool :=
  match v with
  | mkValue _ _ _ b a =>
      (len b <? 2 ^ 63) && (Z.of_nat (length a) <? 2 ^ 63)
      && forallb goSized a
  end.

(** Fuel that [Read] needs on the encoding of a tree. *)
Fixpoint need (v : Value) : nat :=
  match v with
  | mkValue _ _ _ _ a => (2 + list_sum (map need a))%nat
  end.

(** A reader that holds the encoding of [v] in its buffer, or is about
    to, decodes it back and stops right behind it. *)
Definition decodes_back (v : Value) : Prop :=
  bulkArrayTree v = true → goSized v = true →
  ∀ fuel rest k,
    (need v ≤ fuel)%nat →
    (length (Marshal v) ≤ afterFill (Marshal v ++ rest) k)%nat →
    Read fuel (Marshal v ++ rest) k
    = Some (Done v (mkReader rest
                      (afterFill (Marshal v ++ rest) k - length (Marshal v)))).

(** The number a string of decimal digits stands for, after [n]. *)
Fixpoint uval (d : Decimal.uint) (n : Z) : Z :=
  match d with
  | Decimal.Nil => n
  | Decimal.D0 d => uval d (n * 10 + 0)
  | Decimal.D1 d => uval d (n * 10 + 1)
  | Decimal.D2 d => uval d (n * 10 + 2)
  | Decimal.D3 d => uval d (n * 10 + 3)
  | Decimal.D4 d => uval d (n * 10 + 4)
  | Decimal.D5 d => uval d (n * 10 + 5)
  | Decimal.D6 d => uval d (n * 10 + 6)
  | Decimal.D7 d => uval d (n * 10 + 7)
  | Decimal.D8 d => uval d (n * 10 + 8)
  | Decimal.D9 d => uval d (n * 10 + 9)
  end.

(** The last byte of [line] is a carriage return. *)
Definition endsCR (line : list byte) : bool :=
  (1 <=? length line)%nat
  && Ascii.eqb (nth (length line - 1) line "000"%char) CR.

(** A bulk string of 5000 bytes. *)
Definition longBulk : Value := bulkV (string_of_bytes (repeat "a"%char 5000)).

(** The kinds [Marshal] has a case for. *)
Definition knownKind (t : string) : bool :=
  ((t =? "array") || (t =? "bulk") || (t =? "string") || (t =? "null")
   || (t =? "error"))%string.

(** [fn] run on the values one after another, up to the first panic. *)
Fixpoint foldOutcome {S : Type} (fn : Value → S → outcome S)
                     (vs : list Value) (st : S) : outcome S :=
  match vs with
  | [] => Ret st
  | v :: vs' =>
      match fn v st with
      | Ret st' => foldOutcome fn vs' st'
      | Panicked => Panicked
      end
  end.

(** The requests whose command is DEL. *)
Definition isDEL (unicodeUpper : string → string) (value : Value) : bool :=
  (typ value =? "array")%string &&
  match array value with
  | [] => false
  | v0 :: _ => (ToUpper unicodeUpper (bulk v0) =? "DEL")%string
  end.

(** The requests a replay can repeat: no DEL, and what is written to the
    file is a tree of BulkString and Array nodes with lengths that are Go
    ints. *)
Definition replayable (unicodeUpper : string → string) (value : Value) : bool :=
  negb (isDEL unicodeUpper value)
  && (negb (logged unicodeUpper value)
      || (bulkArrayTree value && goSized value)).

(** No hash of the store is empty. *)
Definition hashesNonEmpty (st : Store) : Prop :=
  ∀ h m, HSETs st !! h = Some m → m ≠ ∅.

(** The range of a Go int. *)
Definition minInt : Z := - 2 ^ 63.
Definition maxInt : Z := 2 ^ 63 - 1.

(** * Properties *)

(** ** Round trip *)

Lemma Value_tree_ind (P : Value → Prop) :
  (∀ t s n b a, Forall P a → P (mkValue t s n b a)) → ∀ v, P v.
Proof.
  intros H. fix IH 1. intros [t s n b a]. apply H.
  revert a. fix IHa 1. intros [|c a].
  - constructor.
  - constructor; [apply IH | apply IHa].
Qed.

Section Decimal.

Lemma uval_ge d : ∀ n, 0 ≤ n → n ≤ uval d n.
Proof.
  induction d; intros n Hn; simpl; try lia.
  all: match goal with
       | |- Z.le _ (uval _ ?m) => specialize (IHd m)
       end.
  all: lia.
Qed.

Lemma uval_acc d : ∀ acc, uval d (Zpos acc) = Zpos (Pos.of_uint_acc d acc).
Proof.
  induction d; intros acc; simpl; try reflexivity;
    rewrite <- IHd; f_equal; lia.
Qed.

Lemma uval_of_uint d : uval d 0 = Z.of_N (Pos.of_uint d).
Proof.
  induction d; simpl; try reflexivity; try exact IHd;
    match goal with
    | |- _ = Z.pos (Pos.of_uint_acc _ ?p) => exact (uval_acc d p)
    end.
Qed.

Lemma uval_to_uint p : uval (Pos.to_uint p) 0 = Zpos p.
Proof. by rewrite uval_of_uint, DecimalPos.Unsigned.of_to. Qed.

Lemma parseDigits_digit c s n k :
  isDigit c = true → digitVal c = k → n * 10 + k ≤ maxUint64 →
  parseDigits (c :: s) n = parseDigits s (n * 10 + k).
Proof.
  intros Hc <- Hmax. cbn [parseDigits]. rewrite Hc. cbv zeta.
  by rewrite (proj2 (Z.ltb_ge _ _)) by lia.
Qed.

Lemma parseDigits_uint d :
  ∀ n, 0 ≤ n → uval d n ≤ maxUint64 →
  parseDigits (bytes (NilEmpty.string_of_uint d)) n = inr (uval d n).
Proof.
  induction d; intros n Hn Hmax; unfold bytes in *;
    cbn [NilEmpty.string_of_uint list_ascii_of_string uval] in *;
    [reflexivity|..];
    match type of Hmax with
    | Z.le (uval _ (_ * 10 + ?k)) _ =>
        pose proof (uval_ge d (n * 10 + k) ltac:(lia));
        rewrite (parseDigits_digit _ _ n k) by (reflexivity || lia);
        apply IHd; [lia | done]
    end.
Qed.

Lemma digits_uint d :
  Forall (λ c, isDigit c = true) (bytes (NilEmpty.string_of_uint d)).
Proof. induction d; simpl; constructor; done. Qed.

Lemma isDigit_not_sign c :
  isDigit c = true →
  Ascii.eqb c "-" = false ∧ Ascii.eqb c "+" = false ∧ c ≠ CR.
Proof.
  intros H. repeat split.
  - destruct (Ascii.eqb_spec c "-"); [subst; discriminate | done].
  - destruct (Ascii.eqb_spec c "+"); [subst; discriminate | done].
  - intros ->. discriminate.
Qed.

Lemma Itoa_digits n :
  0 ≤ n → Forall (λ c, isDigit c = true) (bytes (Itoa n)).
Proof.
  intros Hn. destruct n as [|p|p]; [|apply digits_uint|lia].
  repeat constructor.
Qed.

Lemma ParseInt_Itoa n :
  0 ≤ n < 2 ^ 63 → ParseInt (bytes (Itoa n)) = inr n.
Proof.
  intros [H0 H63]. destruct n as [|p|p]; [reflexivity| |lia].
  unfold Itoa. cbn [Z.to_int NilEmpty.string_of_int].
  pose proof (parseDigits_uint (Pos.to_uint p) 0 ltac:(lia)) as HP.
  pose proof (digits_uint (Pos.to_uint p)) as HD.
  pose proof (DecimalPos.Unsigned.to_uint_nonnil p) as HN.
  rewrite uval_to_uint in HP.
  assert (Hmax : Z.pos p ≤ maxUint64) by (unfold maxUint64; lia).
  specialize (HP Hmax).
  destruct (bytes (NilEmpty.string_of_uint (Pos.to_uint p))) as [|c s'] eqn:E.
  { destruct (Pos.to_uint p); simpl in E; discriminate || done. }
  apply Forall_cons_1 in HD as [Hc _].
  apply isDigit_not_sign in Hc as (Hm & Hp & _).
  unfold ParseInt, ParseUint. rewrite Hm, Hp. cbn [orb negb andb].
  rewrite HP. rewrite (proj2 (Z.leb_gt (2 ^ 63) (Z.pos p))) by lia.
  reflexivity.
Qed.

End Decimal.

Section Lines.

Lemma afterFill_pos s k : (0 < k)%nat → afterFill s k = k.
Proof. unfold afterFill. destruct k; [lia|done]. Qed.

Lemma readLine_from_cons line b s k :
  readLine_from line (b :: s) k =
  if endsCR line
  then (inr (firstn (length (line ++ [b]) - 2) (line ++ [b])),
        mkReader s (afterFill (b :: s) k - 1))
  else readLine_from (line ++ [b]) s (afterFill (b :: s) k - 1).
Proof.
  cbn [readLine_from]. cbv zeta.
  replace ((2 <=? length (line ++ [b]))%nat
           && Ascii.eqb (nth (length (line ++ [b]) - 2) (line ++ [b])
                             "000"%char) CR)
    with (endsCR line); [done|].
  unfold endsCR. rewrite length_app. cbn [length].
  destruct line as [|a line]; [reflexivity|].
  cbn [length]. replace (S (length line) + 1 - 2)%nat with (length line) by lia.
  replace (S (length line) - 1)%nat with (length line) by lia.
  rewrite app_nth1 by (cbn [length]; lia).
  f_equal. destruct (length line); reflexivity.
Qed.

Lemma endsCR_snoc line b : endsCR (line ++ [b]) = Ascii.eqb b CR.
Proof.
  unfold endsCR. rewrite length_app. cbn [length].
  replace (length line + 1 - 1)%nat with (length line) by lia.
  rewrite nth_middle.
  by replace (1 <=? length line + 1)%nat with true
    by (symmetry; apply Nat.leb_le; lia).
Qed.

(** A line that lies in the buffer with its two closing bytes. *)
Lemma readLine_from_line l :
  ∀ line x rest k,
    Forall (λ c, c ≠ CR) l → endsCR line = false →
    (length l + 2 ≤ k)%nat →
    readLine_from line (l ++ CR :: x :: rest) k
    = (inr (line ++ l), mkReader rest (k - (length l + 2))).
Proof.
  induction l as [|b l IH]; intros line x rest k Hl Hline Hk.
  - cbn [app length] in *. rewrite readLine_from_cons, Hline.
    rewrite readLine_from_cons, endsCR_snoc.
    change (Ascii.eqb CR CR) with true. cbv iota.
    rewrite <- app_assoc. cbn [app].
    rewrite length_app. cbn [length].
    replace (length line + 2 - 2)%nat with (length line) by lia.
    rewrite take_app_length, app_nil_r.
    rewrite (afterFill_pos _ k) by lia.
    rewrite (afterFill_pos _ (k - 1)) by lia.
    do 2 f_equal. lia.
  - apply Forall_cons_1 in Hl as [Hb Hl]. cbn [length] in Hk.
    cbn [app]. rewrite readLine_from_cons, Hline.
    rewrite (afterFill_pos _ k) by lia.
    rewrite IH; [|done| |lia].
    + rewrite <- app_assoc. cbn [app length]. do 2 f_equal. lia.
    + rewrite endsCR_snoc. by destruct (Ascii.eqb_spec b CR).
Qed.

Lemma readInteger_Itoa n rest k :
  0 ≤ n < 2 ^ 63 →
  (length (bytes (Itoa n)) + 2 ≤ k)%nat →
  readInteger (mkReader (bytes (Itoa n) ++ CR :: LF :: rest) k)
  = (inr n, mkReader rest (k - (length (bytes (Itoa n)) + 2))).
Proof.
  intros Hn Hk. unfold readInteger, readLine. cbn [stream buffered].
  rewrite readLine_from_line; [|..|reflexivity|done].
  - cbn [app]. by rewrite ParseInt_Itoa.
  - eapply Forall_impl; [apply Itoa_digits; lia|].
    intros c Hc. by apply isDigit_not_sign in Hc as (_ & _ & ?).
Qed.

Lemma length_bytes s : length (bytes s) = String.length s.
Proof. induction s; simpl; congruence. Qed.

Lemma string_of_bytes_bytes s : string_of_bytes (bytes s) = s.
Proof. apply string_of_list_ascii_of_string. Qed.

(** [Read(p)] on a reader that holds [len(p)] bytes in its buffer. *)
Lemma ReadN_buffered data rest k :
  (length data ≤ k)%nat →
  ReadN (length data) (data ++ rest) k
  = (data, mkReader rest (k - length data)).
Proof.
  intros Hk. unfold ReadN.
  destruct (length data =? 0)%nat eqn:E0.
  - apply Nat.eqb_eq in E0. rewrite E0.
    apply nil_length_inv in E0 as ->. cbn [app]. do 2 f_equal. lia.
  - apply Nat.eqb_neq in E0.
    replace (k =? 0)%nat with false by (symmetry; apply Nat.eqb_neq; lia).
    cbn [andb]. rewrite afterFill_pos by lia.
    rewrite Nat.min_l by lia.
    by rewrite take_app_length, drop_app_length.
Qed.

Lemma readBulk_marshalled s rest k :
  len s < 2 ^ 63 →
  (length (marshalBulk (bulkV s)) ≤ S k)%nat →
  readBulk (mkReader (bytes (Itoa (len s)) ++ [CR; LF] ++ bytes s
                        ++ [CR; LF] ++ rest) k)
  = Done (bulkV s) (mkReader rest (S k - length (marshalBulk (bulkV s)))).
Proof.
  intros Hs Hk. unfold marshalBulk in Hk |- *. cbn [bulk bulkV] in Hk |- *.
  rewrite !length_app in Hk |- *. cbn [length] in Hk |- *.
  unfold readBulk. cbn [app].
  rewrite readInteger_Itoa by (unfold len in *; lia).
  replace (len s <? 0) with false by (symmetry; apply Z.ltb_ge; unfold len; lia).
  cbn [stream buffered].
  replace (Z.to_nat (len s)) with (length (bytes s))
    by (unfold len; rewrite Nat2Z.id; apply length_bytes).
  rewrite ReadN_buffered by lia.
  rewrite Nat.sub_diag. cbn [repeat]. rewrite app_nil_r.
  rewrite string_of_bytes_bytes.
  unfold readLine. cbn [stream buffered].
  pose proof (readLine_from_line [] [] LF rest
                (k - (length (bytes (Itoa (len s))) + 2) - length (bytes s))
                (Forall_nil_2 _) eq_refl) as E.
  cbn [app length] in E. rewrite E by lia. cbn [snd].
  do 2 f_equal. lia.
Qed.

End Lines.

Section RoundTrip.

Lemma bulkArrayTree_inv t s n b a :
  bulkArrayTree (mkValue t s n b a) = true →
  (t = "bulk" ∧ s = "" ∧ n = 0 ∧ a = []) ∨
  (t = "array" ∧ s = "" ∧ n = 0 ∧ b = "" ∧ forallb bulkArrayTree a = true).
Proof.
  cbn [bulkArrayTree].
  destruct (String.eqb_spec t "bulk") as [->|_].
  - intros [[Hs Hn%Z.eqb_eq]%andb_true_iff Ha]%andb_true_iff.
    apply String.eqb_eq in Hs. left. by destruct a.
  - destruct (String.eqb_spec t "array") as [->|_]; [|discriminate].
    intros [[[Hs Hn%Z.eqb_eq]%andb_true_iff Hb]%andb_true_iff Ha]%andb_true_iff.
    apply String.eqb_eq in Hs, Hb. by right.
Qed.

Lemma goSized_inv t s n b a :
  goSized (mkValue t s n b a) = true →
  len b < 2 ^ 63 ∧ Z.of_nat (length a) < 2 ^ 63 ∧ forallb goSized a = true.
Proof.
  cbn [goSized].
  intros [[Hb%Z.ltb_lt Ha%Z.ltb_lt]%andb_true_iff Hall]%andb_true_iff. done.
Qed.

Lemma need_ge v : (2 ≤ need v)%nat.
Proof. destruct v. cbn [need]. lia. Qed.

Lemma Marshal_bulk b :
  Marshal (mkValue "bulk" "" 0 b [])
  = BULK :: bytes (Itoa (len b)) ++ [CR; LF] ++ bytes b ++ [CR; LF].
Proof. reflexivity. Qed.

Lemma Marshal_array a :
  Marshal (mkValue "array" "" 0 "" a)
  = ARRAY :: bytes (Itoa (Z.of_nat (length a))) ++ [CR; LF]
          ++ flat_map Marshal a.
Proof. reflexivity. Qed.

(** [Marshal] and [Read] on an array are [marshalArray] and [readArray]. *)
Lemma Marshal_marshalArray v : typ v = "array" → Marshal v = marshalArray v.
Proof. destruct v as [t s n b a]. cbn [typ]. intros ->. reflexivity. Qed.

Lemma Read_readArray f s k :
  Read (S f) (ARRAY :: s) k
  = readArray f (mkReader s (afterFill (ARRAY :: s) k - 1)).
Proof. reflexivity. Qed.

Lemma need_le_Marshal v :
  bulkArrayTree v = true → (need v ≤ length (Marshal v))%nat.
Proof.
  induction v as [t s n b a IH] using Value_tree_ind. intros Ht.
  apply bulkArrayTree_inv in Ht as [(-> & -> & -> & ->)|(-> & -> & -> & -> & Hta)].
  - rewrite Marshal_bulk.
    change (need (mkValue "bulk" "" 0 b [])) with 2%nat.
    cbn [length]. rewrite !length_app. cbn [length]. lia.
  - rewrite Marshal_array.
    cbn [need length]. rewrite !length_app. cbn [length].
    assert (list_sum (map need a) ≤ length (flat_map Marshal a))%nat; [|lia].
    clear -IH Hta. induction a as [|c a IHa]; [done|].
    apply Forall_cons_1 in IH as [Hc IH].
    cbn [forallb] in Hta. apply andb_true_iff in Hta as [Htc Hta].
    change (list_sum (map need (c :: a)))
      with (need c + list_sum (map need a))%nat.
    cbn [flat_map]. rewrite length_app.
    specialize (Hc Htc). specialize (IHa IH Hta). lia.
Qed.

Lemma readArray_loop_children cs :
  Forall decodes_back cs →
  forallb bulkArrayTree cs = true → forallb goSized cs = true →
  ∀ f n i acc rest k,
    n = i + Z.of_nat (length cs) →
    (1 + list_sum (map need cs) ≤ f)%nat →
    (length (flat_map Marshal cs) ≤ k)%nat →
    readArray_loop f n i acc (flat_map Marshal cs ++ rest) k
    = Some (Done (arrayV (acc ++ cs))
                 (mkReader rest (k - length (flat_map Marshal cs)))).
Proof.
  induction cs as [|c cs IH]; intros HP Ht Hs f n i acc rest k Hn Hf Hk.
  - destruct f as [|f]; [cbn in Hf; lia|].
    cbn [readArray_loop flat_map app length].
    replace (i <? n) with false by (symmetry; apply Z.ltb_ge; cbn in Hn; lia).
    by rewrite app_nil_r, Nat.sub_0_r.
  - apply Forall_cons_1 in HP as [Hc HP].
    cbn [forallb] in Ht, Hs.
    apply andb_true_iff in Ht as [Htc Ht], Hs as [Hsc Hs].
    change (list_sum (map need (c :: cs)))
      with (need c + list_sum (map need cs))%nat in Hf.
    cbn [length] in Hn. cbn [flat_map] in Hk |- *.
    rewrite length_app in Hk |- *.
    pose proof (need_ge c). pose proof (need_le_Marshal c Htc).
    destruct f as [|f]; [lia|].
    cbn [readArray_loop].
    replace (i <? n) with true by (symmetry; apply Z.ltb_lt; lia).
    rewrite <- app_assoc.
    rewrite (Hc Htc Hsc) by (rewrite ?afterFill_pos; lia).
    rewrite afterFill_pos by lia. cbn [stream buffered].
    rewrite (IH HP Ht Hs) by lia.
    rewrite <- app_assoc. cbn [app]. do 3 f_equal. lia.
Qed.

Lemma Read_tree v : decodes_back v.
Proof.
  induction v as [t s n b a IH] using Value_tree_ind.
  intros Ht Hs fuel rest k Hf Hk.
  apply goSized_inv in Hs as (Hb & Ha & Hsa).
  apply bulkArrayTree_inv in Ht as [(-> & -> & -> & ->)|(-> & -> & -> & -> & Hta)].
  - destruct fuel as [|f]; [cbn in Hf; lia|].
    change (mkValue "bulk" "" 0 b []) with (bulkV b) in *.
    set (A := afterFill (Marshal (bulkV b) ++ rest) k) in *.
    pose proof (need_le_Marshal (bulkV b) eq_refl) as Hn.
    pose proof (need_ge (bulkV b)) as Hn2.
    assert (HA : (length (marshalBulk (bulkV b)) ≤ S (A - 1))%nat)
      by (change (marshalBulk (bulkV b)) with (Marshal (bulkV b)); lia).
    pose proof (readBulk_marshalled b rest (A - 1) Hb HA) as E.
    replace (S (A - 1) - length (marshalBulk (bulkV b)))%nat
      with (A - length (Marshal (bulkV b)))%nat in E
      by (change (marshalBulk (bulkV b)) with (Marshal (bulkV b)) in *; lia).
    rewrite <- E. clear E. subst A.
    unfold bulkV. rewrite Marshal_bulk. cbn [Read app].
    change (Ascii.eqb BULK ARRAY) with false.
    change (Ascii.eqb BULK BULK) with true. cbv iota.
    do 3 f_equal. rewrite <- app_assoc. cbn [app]. by rewrite <- app_assoc.
  - cbn [need] in Hf. destruct fuel as [|f]; [lia|].
    rewrite Marshal_array in *.
    set (I := bytes (Itoa (Z.of_nat (length a)))) in *.
    cbn [Read app] in *. cbn [length] in Hk. rewrite !length_app in Hk.
    cbn [length] in Hk.
    set (A := afterFill (ARRAY :: (I ++ CR :: LF :: flat_map Marshal a) ++ rest) k)
      in *.
    change (Ascii.eqb ARRAY ARRAY) with true. cbv iota.
    rewrite <- app_assoc. cbn [app].
    unfold I at 1. rewrite readInteger_Itoa by (fold I; lia). fold I.
    cbn [stream buffered].
    rewrite (readArray_loop_children a IH Hta Hsa) by lia.
    cbn [app length]. rewrite !length_app. cbn [length].
    do 3 f_equal. lia.
Qed.

End RoundTrip.

(** C2, as stated, fails: the encoding of the simple string "OK" is
    decoded as the zero Value with "OK\\r\\n" left unread, and decoding
    the encoding of Null panics. *)
Lemma simple_string_not_decoded_back :
  (∀ r, decode (NewResp (Marshal (stringV "OK"))) ≠ Some (Done (stringV "OK") r)) ∧
  decode (NewResp (Marshal (stringV "OK")))
    = Some (Done zeroValue (mkReader (bytes "OK" ++ [CR; LF]) 4)) ∧
  decode (NewResp (Marshal nullV)) = Some Panic.
Proof.
  split; [|split].
  - intros r. vm_compute. discriminate.
  - vm_compute. reflexivity.
  - vm_compute. reflexivity.
Qed.

(** C2, amended: for every Value tree made of BulkString and Array nodes
    whose lengths are Go ints and whose encoding is no longer than the
    buffer of the reader, a fresh reader on the encoding, followed by any
    bytes, decodes the tree itself without error and is left right behind
    the encoding. *)
Theorem decode_Marshal (v : Value) (rest : list byte) :
  bulkArrayTree v = true → goSized v = true →
  (length (Marshal v) ≤ bufSize)%nat →
  decode (NewResp (Marshal v ++ rest))
  = Some (Done v (mkReader rest
                    (Nat.min bufSize (length (Marshal v ++ rest))
                     - length (Marshal v)))).
Proof.
  intros Ht Hs Hb. unfold decode, fuel_for, NewResp. cbn [stream buffered].
  pose proof (need_le_Marshal v Ht).
  rewrite (Read_tree v Ht Hs); [done|rewrite length_app; lia|].
  cbn [afterFill Nat.eqb]. rewrite length_app. lia.
Qed.

Lemma decode_Marshal_witness :
  let v := arrayV [bulkV "HSET"; bulkV "h"; arrayV []; bulkV ""] in
  bulkArrayTree v = true ∧ goSized v = true ∧
  (length (Marshal v) ≤ bufSize)%nat ∧
  decode (NewResp (Marshal v ++ Marshal v))
  = Some (Done v (mkReader (Marshal v) (length (Marshal v)))).
Proof.
  intros v.
  assert (Ht : bulkArrayTree v = true) by (vm_compute; reflexivity).
  assert (Hs : goSized v = true) by (vm_compute; reflexivity).
  assert (Hb : (length (Marshal v) ≤ bufSize)%nat)
    by (apply Nat.leb_le; vm_compute; reflexivity).
  split; [exact Ht|]. split; [exact Hs|]. split; [exact Hb|].
  exact (decode_Marshal v (Marshal v) Ht Hs Hb).
Defined.

(** The bound on the encoding is needed: of a bulk string of 5000 bytes
    the one call of [Read] gets the 4089 bytes that are in the buffer,
    and the bulk string that is returned has zero bytes behind them. *)
Lemma long_bulk_read_short :
  match decode (NewResp (Marshal longBulk)) with
  | Some (Done v _) =>
      String.get 4088 (bulk v) = Some "a"%char ∧
      String.get 4089 (bulk v) = Some "000"%char ∧
      String.length (bulk v) = 5000%nat
  | _ => False
  end.
Proof. vm_compute. done. Qed.

(** ** Fuel *)

Section Fuel.

Lemma readLine_from_rest s :
  ∀ line k, (length (stream (readLine_from line s k).2) ≤ length s)%nat.
Proof.
  induction s as [|b s IH]; intros line k; [done|].
  rewrite readLine_from_cons. destruct (endsCR line); cbn [snd stream length].
  - lia.
  - specialize (IH (line ++ [b]) (afterFill (b :: s) k - 1)%nat). lia.
Qed.

Lemma readInteger_rest r :
  (length (stream (readInteger r).2) ≤ length (stream r))%nat.
Proof.
  unfold readInteger, readLine.
  pose proof (readLine_from_rest (stream r) [] (buffered r)) as H.
  destruct (readLine_from [] (stream r) (buffered r)) as [[e|line] r'];
    [done|].
  by destruct (ParseInt line).
Qed.

Lemma ReadN_rest n s k : (length (stream (ReadN n s k).2) ≤ length s)%nat.
Proof.
  unfold ReadN.
  destruct (n =? 0)%nat; [done|].
  destruct ((k =? 0)%nat && (bufSize <=? n)%nat);
    cbn [snd stream]; rewrite length_skipn; lia.
Qed.

Lemma readBulk_rest r v r' :
  readBulk r = Done v r' → (length (stream r') ≤ length (stream r))%nat.
Proof.
  unfold readBulk. pose proof (readInteger_rest r) as H.
  destruct (readInteger r) as [[e|n] r1]; [done|]. cbn [snd] in H.
  destruct (n <? 0); [done|].
  pose proof (ReadN_rest (Z.to_nat n) (stream r1) (buffered r1)) as H1.
  destruct (ReadN (Z.to_nat n) (stream r1) (buffered r1)) as [data r2].
  cbn [snd] in H1. intros [= _ <-].
  pose proof (readLine_from_rest (stream r2) [] (buffered r2)) as H2.
  unfold readLine. lia.
Qed.

Lemma Read_rest f :
  (∀ s k v r',
     Read f s k = Some (Done v r') → (length (stream r') < length s)%nat) ∧
  (∀ n i acc s k v r',
     readArray_loop f n i acc s k = Some (Done v r') →
     (length (stream r') ≤ length s)%nat).
Proof.
  induction f as [|f [IHr IHl]]; [split; intros; discriminate|]. split.
  - intros [|t s] k v r'; cbn [Read]; [discriminate|]. cbv zeta.
    set (r := mkReader s _).
    destruct (Ascii.eqb t ARRAY).
    { pose proof (readInteger_rest r) as H.
      destruct (readInteger r) as [[e|n] r1]; [discriminate|]. cbn [snd] in H.
      intros Hl%IHl. unfold r in *. cbn [length stream] in *. lia. }
    destruct (Ascii.eqb t BULK).
    { intros [= Hb%readBulk_rest]. unfold r in *. cbn [length stream] in *. lia. }
    intros [= _ <-]. unfold r. cbn [length stream]. lia.
  - intros n i acc s k v r'. cbn [readArray_loop].
    destruct (i <? n); [|intros [= _ <-]; cbn [stream]; lia].
    destruct (Read f s k) as [[val r1|val e|]|] eqn:E; try discriminate.
    apply IHr in E. intros Hl%IHl. lia.
Qed.

Lemma Read_fuel f :
  (∀ s k, (2 * length s + 1 ≤ f)%nat → Read f s k ≠ None) ∧
  (∀ n i acc s k,
     (2 * length s + 2 ≤ f)%nat → readArray_loop f n i acc s k ≠ None).
Proof.
  induction f as [|f [IHr IHl]]; [split; intros; lia|]. split.
  - intros [|t s] k Hf; cbn [Read]; [discriminate|]. cbn [length] in Hf.
    cbv zeta. set (r := mkReader s _).
    destruct (Ascii.eqb t ARRAY).
    { pose proof (readInteger_rest r) as H.
      destruct (readInteger r) as [[e|n] r1]; [discriminate|].
      unfold r in *. cbn [snd stream] in H. apply IHl. lia. }
    destruct (Ascii.eqb t BULK); discriminate.
  - intros n i acc s k Hf. cbn [readArray_loop].
    destruct (i <? n); [|discriminate].
    pose proof (IHr s k ltac:(lia)) as Hs.
    destruct (Read f s k) as [[val r1|val e|]|] eqn:E; try done.
    apply (proj1 (Read_rest f)) in E. apply IHl. lia.
Qed.

(** [decode] never runs out of fuel. *)
Lemma decode_total r : is_Some (decode r).
Proof.
  unfold decode, fuel_for.
  pose proof (proj1 (Read_fuel (2 * length (stream r) + 2))
                (stream r) (buffered r) ltac:(lia)) as H.
  by destruct (Read _ (stream r) (buffered r)).
Qed.

(** Neither does [Aof.Read]. *)
Lemma Aof_Read_loop_total {S : Type} (fn : Value → S → outcome S) fuel :
  ∀ r st, (length (stream r) < fuel)%nat → is_Some (Aof.Read_loop fuel fn r st).
Proof.
  induction fuel as [|fuel IH]; intros r st Hf; [lia|].
  cbn [Aof.Read_loop]. destruct (decode_total r) as [res Hr]. rewrite Hr.
  destruct res as [value r'|v e|]; [|by destruct e|done].
  destruct (fn value st) as [st'|]; [|done].
  apply IH. apply (proj1 (Read_rest _)) in Hr. lia.
Qed.

Lemma Aof_Read_total {S : Type} (fn : Value → S → outcome S) file st :
  is_Some (Aof.Read fn file st).
Proof. apply Aof_Read_loop_total. cbn [NewResp stream]. lia. Qed.

End Fuel.

(** ** Arity errors *)

(** C5: SET with one argument returns an Error value whose text contains
    "wrong number of arguments for 'set' command", and GET with no
    argument returns an Error value whose text contains
    "wrong number of arguments for 'get' command". *)
Theorem arity_error_texts (a : Value) (st : Store) :
  (typ (set [a] st).1 = "error" ∧
   ∃ pre post, str (set [a] st).1 =
     pre +:+ "wrong number of arguments for 'set' command" +:+ post) ∧
  (typ (get [] st).1 = "error" ∧
   ∃ pre post, str (get [] st).1 =
     pre +:+ "wrong number of arguments for 'get' command" +:+ post).
Proof.
  split; (split; [reflexivity|]); exists "ERR ", ""; reflexivity.
Qed.

Lemma del_no_args st :
  del [] st = (errorV "ERR wrong number of arguments for 'del' command", st).
Proof. reflexivity. Qed.

(** C9: a handler that answers a wrong number of arguments with an Error
    value leaves both maps as they were. *)
Theorem arity_error_keeps_store
    (rangeOrder : gmap string string → list (string * string))
    (args : list Value) (st : Store) :
  (length args ≠ 2%nat →
     typ (set args st).1 = "error" ∧ (set args st).2 = st) ∧
  (length args ≠ 1%nat →
     typ (get args st).1 = "error" ∧ (get args st).2 = st) ∧
  (length args ≠ 3%nat →
     typ (hset args st).1 = "error" ∧ (hset args st).2 = st) ∧
  (length args ≠ 2%nat →
     typ (hget args st).1 = "error" ∧ (hget args st).2 = st) ∧
  (length args ≠ 1%nat →
     typ (hgetall rangeOrder args st).1 = "error" ∧
     (hgetall rangeOrder args st).2 = st) ∧
  ((length args < 1)%nat →
     typ (del args st).1 = "error" ∧ (del args st).2 = st).
Proof.
  repeat split;
    try (destruct args as [|a0 [|a1 [|a2 [|a3 args]]]];
         simpl in *; first [congruence | lia | reflexivity]).
Qed.

Lemma arity_error_keeps_store_witness :
  (length [bulkV "onlykey"] ≠ 2%nat →
     typ (set [bulkV "onlykey"] emptyStore).1 = "error" ∧
     (set [bulkV "onlykey"] emptyStore).2 = emptyStore) ∧
  (length ([] : list Value) < 1)%nat ∧
  typ (del [] emptyStore).1 = "error" ∧ (del [] emptyStore).2 = emptyStore.
Proof.
  pose proof (arity_error_keeps_store map_to_list [bulkV "onlykey"] emptyStore)
    as (Hset & _).
  pose proof (arity_error_keeps_store map_to_list [] emptyStore)
    as (_ & _ & _ & _ & _ & Hdel).
  split; [exact Hset|].
  assert (Hlt : (length ([] : list Value) < 1)%nat) by (simpl; lia).
  split; [exact Hlt | exact (Hdel Hlt)].
Defined.

(** ** Idempotence *)

Lemma hset_twice_map (H : gmap string (gmap string string)) hash key value :
  let step (H : gmap string (gmap string string)) :=
    let H1 := match H !! hash with
              | None => <[hash := ∅]> H
              | Some _ => H
              end in
    <[hash := <[key := value]> (default ∅ (H1 !! hash))]> H1 in
  step (step H) = step H.
Proof.
  intros step. unfold step.
  destruct (H !! hash) as [m|] eqn:E.
  - rewrite !lookup_insert_eq. simpl.
    rewrite E. simpl. by rewrite !insert_insert_eq.
  - rewrite !lookup_insert_eq. simpl.
    by rewrite !insert_insert_eq.
Qed.

(** C8: SET k v run twice leaves the maps as SET k v run once does, and
    HSET h f v run twice leaves the maps as HSET h f v run once does. *)
Theorem set_hset_idempotent (a0 a1 a2 : Value) (st : Store) :
  (set [a0; a1] (set [a0; a1] st).2).2 = (set [a0; a1] st).2 ∧
  (hset [a0; a1; a2] (hset [a0; a1; a2] st).2).2 = (hset [a0; a1; a2] st).2.
Proof.
  split.
  - simpl. by rewrite insert_insert_eq.
  - cbn [hset snd SETs HSETs]. f_equal. apply hset_twice_map.
Qed.

(** ** HGETALL *)

Lemma hgetall_fold (l : list (string * string)) (acc : list Value) :
  fold_left (λ values kv, (values ++ [bulkV kv.1]) ++ [bulkV kv.2]) l acc
  = acc ++ flat_map fieldValue l.
Proof.
  revert acc. induction l as [|kv l IH]; intros acc; simpl.
  - by rewrite app_nil_r.
  - rewrite IH. unfold fieldValue at 2. by rewrite <- !app_assoc.
Qed.

Lemma length_fieldValues (l : list (string * string)) :
  length (flat_map fieldValue l) = (2 * length l)%nat.
Proof. induction l; simpl; lia. Qed.

(** C7: HGETALL with one argument returns Null when the hash is absent;
    when the hash is present with n fields it returns an Array of 2n
    BulkStrings: the fields of the hash, each once, each followed
    by its value. *)
Theorem hgetall_pairs
    (rangeOrder : gmap string string → list (string * string))
    (a0 : Value) (st : Store) :
  (∀ m, rangeOrder m ≡ₚ map_to_list m) →
  match HSETs st !! bulk a0 with
  | None => hgetall rangeOrder [a0] st = (nullV, st)
  | Some m =>
      ∃ l : list (string * string),
        hgetall rangeOrder [a0] st = (arrayV (flat_map fieldValue l), st) ∧
        length (flat_map fieldValue l) = (2 * size m)%nat ∧
        NoDup l.*1 ∧
        ∀ k v, (k, v) ∈ l ↔ m !! k = Some v
  end.
Proof.
  intros Hperm. unfold hgetall.
  destruct (HSETs st !! bulk a0) as [m|]; [|reflexivity].
  exists (rangeOrder m). split; [by rewrite hgetall_fold|].
  split.
  - rewrite length_fieldValues, (Permutation_length (Hperm m)).
    by rewrite length_map_to_list.
  - split.
    + rewrite (Hperm m). apply NoDup_fst_map_to_list.
    + intros k v. rewrite (Hperm m). apply elem_of_map_to_list.
Qed.

Lemma hgetall_pairs_witness :
  let m : gmap string string := <["x" := "1"]> (<["y" := "2"]> ∅) in
  let st := mkStore ∅ (<["h" := m]> ∅) in
  (∀ m' : gmap string string, map_to_list m' ≡ₚ map_to_list m') ∧
  ∃ l : list (string * string),
    hgetall map_to_list [bulkV "h"] st = (arrayV (flat_map fieldValue l), st) ∧
    length (flat_map fieldValue l) = (2 * size m)%nat ∧
    NoDup l.*1 ∧
    ∀ k v, (k, v) ∈ l ↔ m !! k = Some v.
Proof.
  intros m st.
  assert (Hperm : ∀ m' : gmap string string,
                    map_to_list m' ≡ₚ map_to_list m')
    by reflexivity.
  split; [exact Hperm|].
  pose proof (hgetall_pairs map_to_list (bulkV "h") st Hperm) as P.
  assert (E : HSETs st !! bulk (bulkV "h") = Some m)
    by (vm_compute; reflexivity).
  rewrite E in P. exact P.
Defined.

(** ** DEL *)

Lemma del_loop_spec (args : list Value) :
  ∀ (st : Store) (c : Z),
  ∃ (st' : Store) (n : Z),
    del_loop args st c = (st', c + n) ∧
    Z.of_nat (size (SETs st) + size (HSETs st))
      = n + Z.of_nat (size (SETs st') + size (HSETs st')) ∧
    (∀ k, k ∈ keysOf args → SETs st' !! k = None) ∧
    (∀ k, k ∉ keysOf args → SETs st' !! k = SETs st !! k) ∧
    (∀ k, SETs st !! k = None → SETs st' !! k = None) ∧
    (∀ k, k ∉ keysOf args → HSETs st' !! k = HSETs st !! k) ∧
    (∀ k, HSETs st' !! k = None ∨ HSETs st' !! k = HSETs st !! k) ∧
    (∀ k, k ∈ keysOf args → SETs st !! k = None → HSETs st' !! k = None).
Proof.
  induction args as [|arg rest IH]; intros st c.
  - exists st, 0. simpl.
    repeat split;
      first [ done
            | f_equal; lia
            | intros k Hk; by apply elem_of_nil in Hk
            | intros k; by right ].
  - simpl. set (key := bulk arg).
    destruct (SETs st !! key) as [v|] eqn:ES;
      [|destruct (HSETs st !! key) as [h|] eqn:EH].
    + destruct (IH (mkStore (delete key (SETs st)) (HSETs st)) (c + 1))
        as (st' & n & -> & Hsz & HS1 & HS2 & HS3 & HH1 & HH2 & HH3).
      simpl in *. exists st', (1 + n).
      assert (size (delete key (SETs st)) = pred (size (SETs st)))
        by (by eapply map_size_delete_Some).
      assert (size (SETs st) ≠ 0%nat)
        by (intros E0; apply map_size_empty_inv in E0;
            rewrite E0, lookup_empty in ES; done).
      repeat split.
      * f_equal; lia.
      * lia.
      * intros k [-> | Hk]%elem_of_cons; [|by apply HS1].
        apply HS3. apply lookup_delete_eq.
      * intros k Hk%not_elem_of_cons. destruct Hk as [Hne Hk].
        rewrite HS2 by done. by rewrite lookup_delete_ne.
      * intros k Hk. apply HS3.
        destruct (decide (key = k)) as [->|];
          [apply lookup_delete_eq | by rewrite lookup_delete_ne].
      * intros k Hk%not_elem_of_cons. destruct Hk as [Hne Hk]. by apply HH1.
      * done.
      * intros k [-> | Hk]%elem_of_cons Hn; [fold key in Hn; congruence|].
        apply HH3; [done|].
        destruct (decide (key = k)) as [->|];
          [apply lookup_delete_eq | by rewrite lookup_delete_ne].
    + destruct (IH (mkStore (SETs st) (delete key (HSETs st))) (c + 1))
        as (st' & n & -> & Hsz & HS1 & HS2 & HS3 & HH1 & HH2 & HH3).
      simpl in *. exists st', (1 + n).
      assert (size (delete key (HSETs st)) = pred (size (HSETs st)))
        by (by eapply map_size_delete_Some).
      assert (size (HSETs st) ≠ 0%nat)
        by (intros E0; apply map_size_empty_inv in E0;
            rewrite E0, lookup_empty in EH; done).
      repeat split.
      * f_equal; lia.
      * lia.
      * intros k [-> | Hk]%elem_of_cons; [by apply HS3 | by apply HS1].
      * intros k Hk%not_elem_of_cons. destruct Hk as [Hne Hk]. by apply HS2.
      * done.
      * intros k Hk%not_elem_of_cons. destruct Hk as [Hne Hk].
        rewrite HH1 by done. by rewrite lookup_delete_ne.
      * intros k. destruct (HH2 k) as [-> | ->]; [by left|].
        destruct (decide (key = k)) as [->|];
          [left; apply lookup_delete_eq | right; by rewrite lookup_delete_ne].
      * intros k [-> | Hk]%elem_of_cons Hn; [|by apply HH3].
        destruct (HH2 key) as [-> | ->]; [done | apply lookup_delete_eq].
    + destruct (IH st c)
        as (st' & n & -> & Hsz & HS1 & HS2 & HS3 & HH1 & HH2 & HH3).
      exists st', n. repeat split; try done.
      * intros k [-> | Hk]%elem_of_cons; [by apply HS3 | by apply HS1].
      * intros k Hk%not_elem_of_cons. destruct Hk as [Hne Hk]. by apply HS2.
      * intros k Hk%not_elem_of_cons. destruct Hk as [Hne Hk]. by apply HH1.
      * intros k [-> | Hk]%elem_of_cons Hn; [|by apply HH3].
        destruct (HH2 key) as [-> | ->]; done.
Qed.

(** C1, as stated, fails: with k both a scalar and a hash, DEL k answers
    the simple string "1", not the integer 2, and the hash stays. *)
Lemma del_both_not_integer_2 :
  (del [bulkV "k"] both_k).1 ≠ integerV 2 ∧
  (del [bulkV "k"] both_k).1 = stringV "1" ∧
  HSETs (del [bulkV "k"] both_k).2 !! "k" = HSETs both_k !! "k".
Proof.
  split; [|split].
  - vm_compute. discriminate.
  - vm_compute. reflexivity.
  - vm_compute. reflexivity.
Qed.

(** C1, amended: DEL with at least one argument answers a simple string,
    the decimal text of the number of entries it removed from the two
    maps.  Afterwards no argument is a scalar key, and the scalars that
    are no argument are untouched; a hash is removed only if its key is an
    argument, and it is removed if its key is an argument that was no
    scalar key.  For one argument k: the answer is "1" and only the
    scalar is removed when k is a scalar (a hash k stays); it is "1" and
    the hash is removed when k is a hash and no scalar; it is "0" when k
    is neither. *)
Theorem del_reply (args : list Value) (st : Store) :
  args ≠ [] →
  (∃ (n : Z) (st' : Store),
     del args st = (stringV (Itoa n), st') ∧
     Z.of_nat (size (SETs st) + size (HSETs st))
       = n + Z.of_nat (size (SETs st') + size (HSETs st')) ∧
     (∀ k, k ∈ keysOf args → SETs st' !! k = None) ∧
     (∀ k, k ∉ keysOf args → SETs st' !! k = SETs st !! k) ∧
     (∀ k, k ∉ keysOf args → HSETs st' !! k = HSETs st !! k) ∧
     (∀ k, HSETs st' !! k = None ∨ HSETs st' !! k = HSETs st !! k) ∧
     (∀ k, k ∈ keysOf args → SETs st !! k = None → HSETs st' !! k = None)) ∧
  (∀ a v, SETs st !! bulk a = Some v →
     del [a] st =
       (stringV "1", mkStore (delete (bulk a) (SETs st)) (HSETs st))) ∧
  (∀ a h, SETs st !! bulk a = None → HSETs st !! bulk a = Some h →
     del [a] st =
       (stringV "1", mkStore (SETs st) (delete (bulk a) (HSETs st)))) ∧
  (∀ a, SETs st !! bulk a = None → HSETs st !! bulk a = None →
     del [a] st = (stringV "0", st)).
Proof.
  intros Hne. split; [|split; [|split]].
  - destruct (del_loop_spec args st 0)
      as (st' & n & E & Hsz & HS1 & HS2 & _ & HH1 & HH2 & HH3).
    exists n, st'. split; [|done].
    unfold del. destruct args as [|a args]; [done|].
    cbn [length Nat.ltb Nat.leb]. rewrite E. by rewrite Z.add_0_l.
  - intros a v E. unfold del. simpl. by rewrite E.
  - intros a h E1 E2. unfold del. simpl. by rewrite E1, E2.
  - intros a E1 E2. unfold del. simpl. by rewrite E1, E2.
Qed.

Lemma del_reply_witness :
  [bulkV "k"] ≠ [] ∧
  del [bulkV "k"] both_k =
    (stringV "1", mkStore (delete "k" (SETs both_k)) (HSETs both_k)).
Proof.
  assert (Hne : [bulkV "k"] ≠ []) by discriminate.
  split; [exact Hne|].
  destruct (del_reply [bulkV "k"] both_k Hne) as (_ & Hs & _).
  apply (Hs (bulkV "k") "v"). vm_compute. reflexivity.
Defined.

(** ** Unknown commands *)

(** C6: for a request that is an array with at least one element whose
    upper-cased first element is no key of [Handlers], the bytes written
    to the connection are those of the empty simple string, "+\r\n";
    the maps and the file are left alone. *)
Theorem unknown_command_reply
    (rangeOrder : gmap string string → list (string * string))
    (unicodeUpper : string → string)
    (value v0 : Value) (args : list Value) (srv : Server) :
  typ value = "array" →
  array value = v0 :: args →
  Handlers rangeOrder !! ToUpper unicodeUpper (bulk v0) = None →
  handle rangeOrder unicodeUpper value srv =
    mkServer (store srv) (aof srv) (conn srv ++ Marshal (stringV "")) ∧
  Marshal (stringV "") = [STRING; CR; LF].
Proof.
  intros Ht Ha Hh. split; [|reflexivity].
  unfold handle. rewrite Ht, Ha. cbv zeta. rewrite Hh. reflexivity.
Qed.

Lemma unknown_command_reply_witness :
  let value := arrayV [bulkV "flushall"; bulkV "now"] in
  let srv := mkServer emptyStore [] [] in
  handle map_to_list id value srv = mkServer emptyStore [] [STRING; CR; LF].
Proof.
  intros value srv.
  refine (proj1 (unknown_command_reply map_to_list id value
                   (bulkV "flushall") [bulkV "now"] srv _ _ _));
    vm_compute; reflexivity.
Defined.

(** ** The log *)

Section Log.

Variable rangeOrder : gmap string string → list (string * string).
Variable unicodeUpper : string → string.

Lemma handle_aof (value : Value) (srv : Server) :
  aof (handle rangeOrder unicodeUpper value srv) =
  if logged unicodeUpper value then aof srv ++ Marshal value else aof srv.
Proof.
  unfold handle, logged.
  destruct (typ value =? "array")%string; [|reflexivity].
  destruct (array value) as [|v0 args]; [reflexivity|].
  cbn [negb andb]. cbv zeta.
  destruct (String.eqb_spec (ToUpper unicodeUpper (bulk v0)) "SET") as [->|H1].
  { change (Handlers rangeOrder !! "SET") with (Some set).
    cbn [orb]. by destruct (set args (store srv)). }
  destruct (String.eqb_spec (ToUpper unicodeUpper (bulk v0)) "HSET") as [->|H2].
  { change (Handlers rangeOrder !! "HSET") with (Some hset).
    cbn [orb]. by destruct (hset args (store srv)). }
  cbn [orb].
  destruct (Handlers rangeOrder !! ToUpper unicodeUpper (bulk v0)) as [h|];
    [|reflexivity].
  by destruct (h args (store srv)).
Qed.

(** The file after a run of the request loop: the requests whose command
    is SET or HSET, marshalled, in the order they came. *)
Lemma serve_aof (values : list Value) (srv : Server) :
  aof (serve rangeOrder unicodeUpper values srv) =
  aof srv ++ flat_map Marshal (filter (λ v, logged unicodeUpper v = true) values).
Proof.
  revert srv. induction values as [|value values IH]; intros srv.
  - simpl. by rewrite app_nil_r.
  - unfold serve in *. cbn [fold_left]. rewrite IH, handle_aof.
    rewrite filter_cons. destruct (logged unicodeUpper value) eqn:E.
    + rewrite decide_True by done. simpl. by rewrite <- app_assoc.
    + rewrite decide_False by done. done.
Qed.

End Log.

(** C3 fails for DEL: after the requests SET a 1 and DEL a the file holds
    SET a 1 alone.  The maps no longer have a; the maps replayed from the
    file have a = "1". *)
Theorem del_is_not_logged
    (rangeOrder : gmap string string → list (string * string))
    (unicodeUpper : string → string) :
  let srv := serve rangeOrder unicodeUpper [SET_a_1; DEL_a]
                   (mkServer emptyStore [] []) in
  aof srv = Marshal SET_a_1 ∧
  (get [bulkV "a"] (store srv)).1 = nullV ∧
  ∃ st : Store,
    startup rangeOrder unicodeUpper (aof srv) = Some (Ret (None, st)) ∧
    (get [bulkV "a"] st).1 = bulkV "1".
Proof.
  intros srv. split; [vm_compute; reflexivity|].
  split; [vm_compute; reflexivity|].
  eexists. split; vm_compute; reflexivity.
Qed.

(** ** Replay *)

(** C4: the file written by the three commands SET a 1, HSET h f 2,
    SET a 3 is replayed to its end without error from the empty maps,
    and in the maps it leaves GET a returns the bulk string "3" and
    HGET h f returns the bulk string "2". *)
Theorem replay_three_commands
    (rangeOrder : gmap string string → list (string * string))
    (unicodeUpper : string → string) :
  let file := Aof.Write (Aof.Write (Aof.Write [] SET_a_1) HSET_h_f_2) SET_a_3 in
  ∃ st : Store,
    startup rangeOrder unicodeUpper file = Some (Ret (None, st)) ∧
    (get [bulkV "a"] st).1 = bulkV "3" ∧
    (hget [bulkV "h"; bulkV "f"] st).1 = bulkV "2".
Proof.
  intros file. eexists. split; [vm_compute; reflexivity|].
  split; vm_compute; reflexivity.
Qed.

(** * Further properties *)

(** ** Handlers: reads after writes *)

(** X1: after SET k v, GET k returns the bulk string v, GET of any other
    key returns what it returned before, and the hashes are untouched. *)
Theorem get_after_set (a0 a1 b : Value) (st : Store) :
  (get [b] (set [a0; a1] st).2).1
  = (if (bulk b =? bulk a0)%string then bulkV (bulk a1) else (get [b] st).1) ∧
  HSETs (set [a0; a1] st).2 = HSETs st.
Proof.
  split; [|reflexivity]. cbn [set get snd fst SETs].
  destruct (String.eqb_spec (bulk b) (bulk a0)) as [->|Hne].
  - rewrite lookup_insert_eq. reflexivity.
  - rewrite lookup_insert_ne by done. by destruct (SETs st !! bulk b).
Qed.

Lemma hset_lookup (H : gmap string (gmap string string)) hash key value h f :
  let H1 := match H !! hash with
            | None => <[hash := ∅]> H
            | Some _ => H
            end in
  default ∅ (<[hash := <[key := value]> (default ∅ (H1 !! hash))]> H1 !! h) !! f
  = if decide (h = hash ∧ f = key) then Some value
    else default ∅ (H !! h) !! f.
Proof.
  intros H1.
  assert (E : default ∅ (H1 !! hash) = default ∅ (H !! hash)).
  { unfold H1. destruct (H !! hash) eqn:E; [by rewrite E|].
    by rewrite lookup_insert_eq. }
  rewrite E.
  assert (E1 : ∀ h', h' ≠ hash → H1 !! h' = H !! h').
  { intros h' Hh'. unfold H1. destruct (H !! hash); [done|].
    by rewrite lookup_insert_ne. }
  clearbody H1.
  destruct (decide (h = hash)) as [->|Hh].
  - rewrite (lookup_insert_eq H1). cbn [from_option id].
    destruct (decide (f = key)) as [->|Hf].
    + rewrite lookup_insert_eq. by rewrite decide_True.
    + rewrite lookup_insert_ne by done. rewrite decide_False by tauto. done.
  - rewrite (lookup_insert_ne H1) by done. rewrite decide_False by tauto.
    by rewrite E1.
Qed.

(** X2: after HSET h f v, HGET h f returns the bulk string v, HGET of any
    other hash or field returns what it returned before, and the scalars
    are untouched. *)
Theorem hget_after_hset (a0 a1 a2 b0 b1 : Value) (st : Store) :
  (hget [b0; b1] (hset [a0; a1; a2] st).2).1
  = (if (bulk b0 =? bulk a0)%string && (bulk b1 =? bulk a1)%string
     then bulkV (bulk a2) else (hget [b0; b1] st).1) ∧
  SETs (hset [a0; a1; a2] st).2 = SETs st.
Proof.
  split; [|reflexivity]. cbn [hset hget snd fst HSETs].
  rewrite hset_lookup.
  destruct (String.eqb_spec (bulk b0) (bulk a0)) as [E0|E0];
    destruct (String.eqb_spec (bulk b1) (bulk a1)) as [E1|E1]; cbn [andb];
    first [ rewrite decide_True by done; reflexivity
          | rewrite decide_False by tauto;
            by destruct (default ∅ (HSETs st !! bulk b0) !! bulk b1) ].
Qed.

(** X3: PING, GET, HGET and HGETALL leave the store as it was, whatever
    their arguments. *)
Theorem read_handlers_keep_store
    (rangeOrder : gmap string string → list (string * string))
    (args : list Value) (st : Store) :
  (ping args st).2 = st ∧ (get args st).2 = st ∧ (hget args st).2 = st ∧
  (hgetall rangeOrder args st).2 = st.
Proof.
  repeat split.
  - by destruct args.
  - destruct args as [|a0 [|a1 args]]; try done.
    cbn [get]. by destruct (SETs st !! bulk a0).
  - destruct args as [|a0 [|a1 [|a2 args]]]; try done.
    cbn [hget]. by destruct (default ∅ (HSETs st !! bulk a0) !! bulk a1).
  - destruct args as [|a0 [|a1 args]]; try done.
    cbn [hgetall]. by destruct (HSETs st !! bulk a0).
Qed.

(** X4: a handler answers with an Error value exactly when the number of
    its arguments is wrong: other than 2 for SET, 1 for GET, 3 for HSET,
    2 for HGET, 1 for HGETALL, none for DEL; PING never does. *)
Theorem error_iff_wrong_arity
    (rangeOrder : gmap string string → list (string * string))
    (args : list Value) (st : Store) :
  (typ (ping args st).1 =? "error")%string = false ∧
  (typ (set args st).1 =? "error")%string = negb (length args =? 2)%nat ∧
  (typ (get args st).1 =? "error")%string = negb (length args =? 1)%nat ∧
  (typ (hset args st).1 =? "error")%string = negb (length args =? 3)%nat ∧
  (typ (hget args st).1 =? "error")%string = negb (length args =? 2)%nat ∧
  (typ (hgetall rangeOrder args st).1 =? "error")%string
    = negb (length args =? 1)%nat ∧
  (typ (del args st).1 =? "error")%string = (length args =? 0)%nat.
Proof.
  repeat split.
  - by destruct args.
  - by destruct args as [|a0 [|a1 [|a2 args]]].
  - destruct args as [|a0 [|a1 args]]; try done.
    cbn [get]. by destruct (SETs st !! bulk a0).
  - by destruct args as [|a0 [|a1 [|a2 [|a3 args]]]].
  - destruct args as [|a0 [|a1 [|a2 args]]]; try done.
    cbn [hget]. by destruct (default ∅ (HSETs st !! bulk a0) !! bulk a1).
  - destruct args as [|a0 [|a1 args]]; try done.
    cbn [hgetall]. by destruct (HSETs st !! bulk a0).
  - destruct args as [|a0 args]; [done|].
    unfold del. cbn [length Nat.ltb Nat.leb].
    by destruct (del_loop (a0 :: args) st 0).
Qed.

(** X5: on a key that is neither a scalar nor a hash, SET followed by DEL
    of the key, and HSET followed by DEL of the key, answer DEL with "1"
    and leave the store as it was before the two commands. *)
Theorem del_undoes_set_and_hset (a0 a1 a2 : Value) (st : Store) :
  SETs st !! bulk a0 = None →
  del [a0] (set [a0; a1] st).2 = (stringV "1", st) ∧
  (HSETs st !! bulk a0 = None →
   del [a0] (hset [a0; a1; a2] st).2 = (stringV "1", st)).
Proof.
  intros HS. destruct st as [S H]. cbn [SETs HSETs] in *. split.
  - unfold del. cbn [set snd length Nat.ltb Nat.leb del_loop SETs HSETs].
    rewrite lookup_insert_eq, delete_insert_id by done. reflexivity.
  - intros HH. unfold del.
    cbn [hset snd length Nat.ltb Nat.leb del_loop SETs HSETs].
    rewrite HS, HH. rewrite (lookup_insert_eq (<[bulk a0:=∅]> H)).
    rewrite delete_insert_eq, delete_insert_id by done. reflexivity.
Qed.

Lemma del_undoes_set_and_hset_witness :
  SETs emptyStore !! "k" = None ∧
  del [bulkV "k"] (set [bulkV "k"; bulkV "v"] emptyStore).2
    = (stringV "1", emptyStore).
Proof.
  assert (H : SETs emptyStore !! bulk (bulkV "k") = None) by reflexivity.
  split; [exact H|].
  exact (proj1 (del_undoes_set_and_hset (bulkV "k") (bulkV "v") (bulkV "w")
                  emptyStore H)).
Defined.

(** X6: after HSET h f v, HGETALL h returns an Array (never Null) in which
    the bulk string f is followed at once by the bulk string v. *)
Theorem hgetall_after_hset
    (rangeOrder : gmap string string → list (string * string))
    (a0 a1 a2 : Value) (st : Store) :
  (∀ m, rangeOrder m ≡ₚ map_to_list m) →
  ∃ l1 l2 : list Value,
    (hgetall rangeOrder [a0] (hset [a0; a1; a2] st).2).1
    = arrayV (l1 ++ [bulkV (bulk a1); bulkV (bulk a2)] ++ l2).
Proof.
  intros Hperm. cbn [hset snd hgetall HSETs].
  set (H1 := match HSETs st !! bulk a0 with
             | None => <[bulk a0 := ∅]> (HSETs st)
             | Some _ => HSETs st
             end).
  rewrite (lookup_insert_eq H1). cbn [fst].
  set (m := <[bulk a1 := bulk a2]> (default ∅ (H1 !! bulk a0))).
  rewrite hgetall_fold. cbn [app].
  assert (Hin : (bulk a1, bulk a2) ∈ rangeOrder m).
  { rewrite (Hperm m). apply elem_of_map_to_list. apply lookup_insert_eq. }
  apply list_elem_of_split in Hin as (la & lb & ->).
  exists (flat_map fieldValue la), (flat_map fieldValue lb).
  by rewrite flat_map_app.
Qed.

Lemma hgetall_after_hset_witness :
  (∀ m : gmap string string, map_to_list m ≡ₚ map_to_list m) ∧
  ∃ l1 l2 : list Value,
    (hgetall map_to_list [bulkV "h"]
       (hset [bulkV "h"; bulkV "f"; bulkV "v"] emptyStore).2).1
    = arrayV (l1 ++ [bulkV "f"; bulkV "v"] ++ l2).
Proof.
  assert (Hperm : ∀ m : gmap string string, map_to_list m ≡ₚ map_to_list m)
    by reflexivity.
  split; [exact Hperm|].
  exact (hgetall_after_hset map_to_list (bulkV "h") (bulkV "f") (bulkV "v")
           emptyStore Hperm).
Defined.

(** ** The reader: lines and integers *)

Lemma readLine_from_any l :
  ∀ line x rest k,
    Forall (λ c, c ≠ CR) l → endsCR line = false →
    ∃ k', readLine_from line (l ++ CR :: x :: rest) k
          = (inr (line ++ l), mkReader rest k').
Proof.
  induction l as [|b l IH]; intros line x rest k Hl Hline.
  - cbn [app]. rewrite readLine_from_cons, Hline.
    rewrite readLine_from_cons, endsCR_snoc.
    change (Ascii.eqb CR CR) with true. cbv iota.
    rewrite <- app_assoc. cbn [app].
    rewrite length_app. cbn [length].
    replace (length line + 2 - 2)%nat with (length line) by lia.
    rewrite take_app_length, app_nil_r. by eexists.
  - apply Forall_cons_1 in Hl as [Hb Hl].
    cbn [app]. rewrite readLine_from_cons, Hline.
    destruct (IH (line ++ [b]) x rest (afterFill (b :: l ++ CR :: x :: rest) k - 1)%nat)
      as [k' E]; [done| |].
    + rewrite endsCR_snoc. by destruct (Ascii.eqb_spec b CR).
    + rewrite E, <- app_assoc. by eexists.
Qed.

(** X7: [readLine] ends a line at the first carriage return and drops
    the byte behind it, whatever that byte is: it does not ask for a line
    feed.  The line may be spread over any number of buffer fills. *)
Theorem readLine_any_terminator (l : list byte) (x : byte)
                                (rest : list byte) (k : nat) :
  Forall (λ c, c ≠ CR) l →
  ∃ k', readLine (mkReader (l ++ CR :: x :: rest) k)
        = (inr l, mkReader rest k').
Proof.
  intros Hl. unfold readLine. cbn [stream buffered].
  exact (readLine_from_any l [] x rest k Hl eq_refl).
Qed.

Lemma readLine_any_terminator_witness :
  Forall (λ c, c ≠ CR) (bytes "12") ∧
  ∃ k', readLine (NewResp (bytes "12" ++ CR :: "x"%char :: bytes "rest"))
        = (inr (bytes "12"), mkReader (bytes "rest") k').
Proof.
  assert (H : Forall (λ c, c ≠ CR) (bytes "12"))
    by (repeat constructor; discriminate).
  split; [exact H|].
  exact (readLine_any_terminator (bytes "12") "x"%char (bytes "rest") 0 H).
Defined.

Lemma readLine_from_eof s :
  ∀ line k,
    (s ≠ [] → endsCR line = false) →
    Forall (λ c, c ≠ CR) (removelast s) →
    ∃ k', readLine_from line s k = (inl EOF, mkReader [] k').
Proof.
  induction s as [|b s IH]; intros line k Hline Hs; [by eexists|].
  rewrite readLine_from_cons, Hline by done.
  apply IH.
  - intros Hne. rewrite endsCR_snoc.
    destruct s as [|b' s]; [done|]. cbn [removelast] in Hs.
    apply Forall_cons_1 in Hs as [Hb _]. by destruct (Ascii.eqb_spec b CR).
  - destruct s as [|b' s]; [constructor|]. cbn [removelast] in Hs.
    by apply Forall_cons_1 in Hs as [_ Hs].
Qed.

(** X8: on input in which no byte but perhaps the last is a carriage
    return, [readLine] returns io.EOF and has consumed every byte. *)
Theorem readLine_unterminated (s : list byte) (k : nat) :
  Forall (λ c, c ≠ CR) (removelast s) →
  ∃ k', readLine (mkReader s k) = (inl EOF, mkReader [] k').
Proof.
  intros Hs. unfold readLine. cbn [stream buffered].
  by apply readLine_from_eof.
Qed.

Lemma readLine_unterminated_witness :
  Forall (λ c, c ≠ CR) (removelast (bytes "12" ++ [CR])) ∧
  ∃ k', readLine (NewResp (bytes "12" ++ [CR])) = (inl EOF, mkReader [] k').
Proof.
  assert (H : Forall (λ c, c ≠ CR) (removelast (bytes "12" ++ [CR])))
    by (repeat constructor; discriminate).
  split; [exact H|].
  exact (readLine_unterminated (bytes "12" ++ [CR]) 0 H).
Defined.

Lemma ParseInt_Itoa_int n :
  minInt ≤ n ≤ maxInt → ParseInt (bytes (Itoa n)) = inr n.
Proof.
  unfold minInt, maxInt. intros Hn.
  destruct n as [|p|p]; [reflexivity|apply ParseInt_Itoa; lia|].
  unfold Itoa. cbn [Z.to_int NilEmpty.string_of_int].
  pose proof (parseDigits_uint (Pos.to_uint p) 0 ltac:(lia)) as HP.
  pose proof (DecimalPos.Unsigned.to_uint_nonnil p) as HN.
  rewrite uval_to_uint in HP.
  assert (Hmax : Z.pos p ≤ maxUint64) by (unfold maxUint64; lia).
  specialize (HP Hmax).
  unfold bytes in *. cbn [list_ascii_of_string].
  unfold ParseInt.
  change (Ascii.eqb "-" "-") with true.
  change (Ascii.eqb "-" "+") with false. cbn [orb negb andb].
  unfold ParseUint.
  destruct (list_ascii_of_string (NilEmpty.string_of_uint (Pos.to_uint p)))
    as [|c s'] eqn:E.
  { destruct (Pos.to_uint p); simpl in E; discriminate || done. }
  rewrite HP. rewrite (proj2 (Z.ltb_ge (2 ^ 63) (Z.pos p))) by lia.
  reflexivity.
Qed.

Lemma Itoa_noCR n : Forall (λ c, c ≠ CR) (bytes (Itoa n)).
Proof.
  assert (Hd : ∀ d, Forall (λ c, c ≠ CR) (bytes (NilEmpty.string_of_uint d))).
  { intros d. eapply Forall_impl; [apply digits_uint|].
    intros c Hc. by apply isDigit_not_sign in Hc as (_ & _ & ?). }
  destruct n as [|p|p].
  - repeat constructor. discriminate.
  - apply Hd.
  - unfold Itoa. cbn [Z.to_int NilEmpty.string_of_int].
    unfold bytes. cbn [list_ascii_of_string].
    constructor; [discriminate|apply Hd].
Qed.

Lemma readInteger_Itoa_any n x rest k :
  minInt ≤ n ≤ maxInt →
  ∃ k', readInteger (mkReader (bytes (Itoa n) ++ CR :: x :: rest) k)
        = (inr n, mkReader rest k').
Proof.
  intros Hn. unfold readInteger, readLine. cbn [stream buffered].
  destruct (readLine_from_any (bytes (Itoa n)) [] x rest k (Itoa_noCR n) eq_refl)
    as [k' E].
  rewrite E. cbn [app]. rewrite ParseInt_Itoa_int by done. by eexists.
Qed.

(** X9: [readInteger] reads back every Go int that was written as
    [strconv.Itoa] writes it, followed by a carriage return and one more
    byte. *)
Theorem readInteger_reads_Itoa (n : Z) (rest : list byte) (k : nat) :
  minInt ≤ n ≤ maxInt →
  ∃ k', readInteger (mkReader (bytes (Itoa n) ++ CR :: LF :: rest) k)
        = (inr n, mkReader rest k').
Proof. apply readInteger_Itoa_any. Qed.

Lemma readInteger_reads_Itoa_witness :
  minInt ≤ -42 ≤ maxInt ∧
  ∃ k', readInteger (NewResp (bytes (Itoa (-42)) ++ CR :: LF :: bytes "$"))
        = (inr (-42), mkReader (bytes "$") k').
Proof.
  assert (H : minInt ≤ -42 ≤ maxInt) by (unfold minInt, maxInt; lia).
  split; [exact H|].
  exact (readInteger_reads_Itoa (-42) (bytes "$") 0 H).
Defined.

Lemma isDigit_val c : isDigit c = true → 0 ≤ digitVal c ≤ 9.
Proof.
  unfold isDigit, digitVal.
  intros [H1%Nat.leb_le H2%Nat.leb_le]%andb_true_iff. lia.
Qed.

Lemma parseDigits_range s :
  ∀ n m, 0 ≤ n ≤ maxUint64 → parseDigits s n = inr m → 0 ≤ m ≤ maxUint64.
Proof.
  induction s as [|c s IH]; intros n m Hn; cbn [parseDigits].
  - by intros [= <-].
  - destruct (isDigit c) eqn:Hc; [|discriminate].
    apply isDigit_val in Hc. cbv zeta.
    destruct (maxUint64 <? n * 10 + digitVal c) eqn:E; [discriminate|].
    apply Z.ltb_ge in E. apply IH. lia.
Qed.

Lemma ParseInt_range s n : ParseInt s = inr n → minInt ≤ n ≤ maxInt.
Proof.
  unfold ParseInt, minInt, maxInt. destruct s as [|c s']; [discriminate|].
  cbv zeta.
  set (s0 := if Ascii.eqb c "+" || Ascii.eqb c "-" then s' else c :: s').
  destruct (ParseUint s0) as [e|un] eqn:EU; [discriminate|].
  assert (Hun : 0 ≤ un ≤ maxUint64).
  { unfold ParseUint in EU. destruct s0; [discriminate|].
    eapply parseDigits_range; [|exact EU]. unfold maxUint64. lia. }
  destruct (Ascii.eqb c "-"); cbn [negb andb].
  - destruct (2 ^ 63 <? un) eqn:E; [discriminate|].
    apply Z.ltb_ge in E. intros [= <-]. lia.
  - destruct (2 ^ 63 <=? un) eqn:E; [discriminate|].
    apply Z.leb_gt in E. intros [= <-]. lia.
Qed.

(** X10: an integer that [readInteger] returns without error is a 64-bit
    Go int. *)
Theorem readInteger_in_range (r r' : Reader) (n : Z) :
  readInteger r = (inr n, r') → minInt ≤ n ≤ maxInt.
Proof.
  unfold readInteger. destruct (readLine r) as [[e|line] r1]; [discriminate|].
  destruct (ParseInt line) as [e|i64] eqn:E; [discriminate|].
  intros [= <- _]. by eapply ParseInt_range.
Qed.

Lemma readInteger_in_range_witness :
  readInteger (NewResp (bytes "+007" ++ [CR; LF])) = (inr 7, mkReader [] 0) ∧
  minInt ≤ 7 ≤ maxInt.
Proof.
  assert (H : readInteger (NewResp (bytes "+007" ++ [CR; LF]))
              = (inr 7, mkReader [] 0)) by (vm_compute; reflexivity).
  split; [exact H|].
  exact (readInteger_in_range _ _ 7 H).
Defined.

(** ** The reader: values *)

Lemma decode_cons t s :
  decode (NewResp (t :: s))
  = Read (S (2 * S (length s) + 1)) (t :: s) 0.
Proof.
  unfold decode, fuel_for, NewResp. cbn [stream buffered length].
  f_equal. lia.
Qed.

(** X11: a bulk string whose length field is negative makes the decoder
    panic ([make] with a negative length), whatever follows. *)
Theorem negative_bulk_length_panics (n : Z) (rest : list byte) :
  minInt ≤ n < 0 →
  decode (NewResp (BULK :: bytes (Itoa n) ++ CR :: LF :: rest)) = Some Panic.
Proof.
  intros Hn. rewrite decode_cons. cbn [Read].
  change (Ascii.eqb BULK ARRAY) with false.
  change (Ascii.eqb BULK BULK) with true. cbv iota zeta.
  unfold readBulk.
  edestruct (readInteger_Itoa_any n LF rest) as [k' E];
    [unfold maxInt; lia|].
  rewrite E. by rewrite (proj2 (Z.ltb_lt n 0)) by lia.
Qed.

Lemma negative_bulk_length_panics_witness :
  minInt ≤ -7 < 0 ∧
  decode (NewResp (BULK :: bytes (Itoa (-7)) ++ CR :: LF :: bytes "abc"))
  = Some Panic.
Proof.
  assert (H : minInt ≤ -7 < 0) by (unfold minInt; lia).
  split; [exact H|].
  exact (negative_bulk_length_panics (-7) (bytes "abc") H).
Defined.

(** X12: an array whose count field is zero or negative is decoded as the
    empty array, and the reader stops right behind the count line. *)
Theorem nonpositive_array_count_is_empty (n : Z) (rest : list byte) :
  minInt ≤ n ≤ 0 →
  ∃ k', decode (NewResp (ARRAY :: bytes (Itoa n) ++ CR :: LF :: rest))
        = Some (Done (arrayV []) (mkReader rest k')).
Proof.
  intros Hn. rewrite decode_cons. cbn [Read].
  change (Ascii.eqb ARRAY ARRAY) with true. cbv iota zeta.
  edestruct (readInteger_Itoa_any n LF rest) as [k' E];
    [unfold maxInt; lia|].
  rewrite E. cbn [stream buffered].
  replace (2 * S (length (bytes (Itoa n) ++ CR :: LF :: rest)) + 1)%nat
    with (S (2 * S (length (bytes (Itoa n) ++ CR :: LF :: rest))))%nat by lia.
  cbn [readArray_loop].
  rewrite (proj2 (Z.ltb_ge 0 n)) by lia. by eexists.
Qed.

Lemma nonpositive_array_count_is_empty_witness :
  minInt ≤ -1 ≤ 0 ∧
  ∃ k', decode (NewResp (ARRAY :: bytes (Itoa (-1)) ++ CR :: LF :: bytes "$"))
        = Some (Done (arrayV []) (mkReader (bytes "$") k')).
Proof.
  assert (H : minInt ≤ -1 ≤ 0) by (unfold minInt; lia).
  split; [exact H|].
  exact (nonpositive_array_count_is_empty (-1) (bytes "$") H).
Defined.




(** X14: a value that is decoded without error has cost the reader at
    least one byte, a type byte that is neither '*' nor '$' included. *)
Theorem decode_consumes (r r' : Reader) (v : Value) :
  decode r = Some (Done v r') →
  (length (stream r') < length (stream r))%nat.
Proof. unfold decode. apply (proj1 (Read_rest _)). Qed.

Lemma decode_consumes_witness :
  decode (NewResp (bytes "+OK"))
    = Some (Done zeroValue (mkReader (bytes "OK") 2)) ∧
  (length (bytes "OK") < length (bytes "+OK"))%nat.
Proof.
  assert (H : decode (NewResp (bytes "+OK"))
              = Some (Done zeroValue (mkReader (bytes "OK") 2)))
    by (vm_compute; reflexivity).
  split; [exact H|].
  exact (decode_consumes _ _ _ H).
Defined.

Lemma decode_tree (v : Value) (rest : list byte) :
  bulkArrayTree v = true → goSized v = true →
  (length (Marshal v) ≤ bufSize)%nat →
  ∃ k, decode (NewResp (Marshal v ++ rest)) = Some (Done v (mkReader rest k)).
Proof.
  intros Ht Hs Hb. unfold decode, fuel_for, NewResp. cbn [stream buffered].
  pose proof (need_le_Marshal v Ht).
  rewrite (Read_tree v Ht Hs); [by eexists|rewrite length_app; lia|].
  cbn [afterFill Nat.eqb]. rewrite length_app. lia.
Qed.

(** X15: the encodings of trees of BulkString and Array nodes that fit the
    buffer are uniquely decodable: when two encodings, each followed by
    any bytes, give the same byte sequence, the trees are equal and so
    are the bytes that follow. *)
Theorem Marshal_prefix_free (v1 v2 : Value) (rest1 rest2 : list byte) :
  bulkArrayTree v1 = true → goSized v1 = true →
  (length (Marshal v1) ≤ bufSize)%nat →
  bulkArrayTree v2 = true → goSized v2 = true →
  (length (Marshal v2) ≤ bufSize)%nat →
  Marshal v1 ++ rest1 = Marshal v2 ++ rest2 →
  v1 = v2 ∧ rest1 = rest2.
Proof.
  intros Ht1 Hs1 Hb1 Ht2 Hs2 Hb2 E.
  destruct (decode_tree v1 rest1 Ht1 Hs1 Hb1) as [k1 E1].
  destruct (decode_tree v2 rest2 Ht2 Hs2 Hb2) as [k2 E2].
  rewrite E, E2 in E1. by injection E1 as -> -> _.
Qed.

Lemma Marshal_prefix_free_witness :
  let v1 := arrayV [bulkV "GET"; bulkV "a"] in
  let v2 := arrayV (map bulkV ["GET"; "a"]) in
  let rest := Marshal (bulkV "x") in
  Marshal v1 ++ rest = Marshal v2 ++ rest ∧ v1 = v2 ∧ rest = rest.
Proof.
  intros v1 v2 rest.
  assert (E : Marshal v1 ++ rest = Marshal v2 ++ rest) by reflexivity.
  split; [exact E|].
  refine (Marshal_prefix_free v1 v2 rest rest _ _ _ _ _ _ E);
    try (vm_compute; reflexivity); apply Nat.leb_le; vm_compute; reflexivity.
Defined.

(** X16: [Marshal] writes no byte at all for a Value whose kind is not
    one of array, bulk, string, null and error (the integer kind among
    them), and at least one byte for each of those five. *)
Theorem Marshal_empty_iff_unknown_kind (v : Value) :
  (length (Marshal v) =? 0)%nat = negb (knownKind (typ v)).
Proof.
  destruct v as [t s n b a]. cbn [typ Marshal]. unfold knownKind.
  destruct (t =? "array")%string; [reflexivity|].
  destruct (t =? "bulk")%string; [reflexivity|].
  destruct (t =? "string")%string; [reflexivity|].
  destruct (t =? "null")%string; [reflexivity|].
  destruct (t =? "error")%string; reflexivity.
Qed.

(** ** The request loop and the file *)

Section Session.

Variable rangeOrder : gmap string string → list (string * string).
Variable unicodeUpper : string → string.

Lemma Handlers_lookup c (h : handler) :
  Handlers rangeOrder !! c = Some h →
  (c = "PING" ∧ h = ping) ∨ (c = "SET" ∧ h = set) ∨ (c = "GET" ∧ h = get) ∨
  (c = "HSET" ∧ h = hset) ∨ (c = "HGET" ∧ h = hget) ∨
  (c = "HGETALL" ∧ h = hgetall rangeOrder) ∨ (c = "DEL" ∧ h = del).
Proof.
  intros H. apply elem_of_list_to_map_2 in H.
  repeat (apply elem_of_cons in H as [[= -> ->]|H]; [tauto|]).
  by apply elem_of_nil in H.
Qed.

Lemma fold_Write (vs : list Value) (file : list byte) :
  fold_left Aof.Write vs file = file ++ flat_map Marshal vs.
Proof.
  revert file. induction vs as [|v vs IH]; intros file; cbn [fold_left flat_map].
  - by rewrite app_nil_r.
  - rewrite IH. unfold Aof.Write. by rewrite <- app_assoc.
Qed.

Lemma Read_loop_written {S : Type} (fn : Value → S → outcome S) vs :
  ∀ fuel st k,
    Forall (λ v, bulkArrayTree v = true ∧ goSized v = true) vs →
    (length (flat_map Marshal vs) ≤ afterFill (flat_map Marshal vs) k)%nat →
    (length (flat_map Marshal vs) < fuel)%nat →
    Aof.Read_loop fuel fn (mkReader (flat_map Marshal vs) k) st
    = Some (match foldOutcome fn vs st with
            | Ret st' => Ret (None, st')
            | Panicked => Panicked
            end).
Proof.
  induction vs as [|v vs IH]; intros fuel st k Hvs Hk Hf.
  - destruct fuel as [|fuel]; [cbn in Hf; lia|]. reflexivity.
  - apply Forall_cons_1 in Hvs as [[Ht Hs] Hvs].
    cbn [flat_map] in *. rewrite length_app in Hk, Hf.
    destruct fuel as [|fuel]; [lia|].
    pose proof (need_le_Marshal v Ht) as Hn. pose proof (need_ge v) as Hn2.
    cbn [Aof.Read_loop]. unfold decode. cbn [stream buffered].
    rewrite (Read_tree v Ht Hs)
      by (unfold fuel_for; rewrite ?length_app; lia).
    cbn [foldOutcome]. destruct (fn v st) as [st'|]; [|done].
    apply IH; [done| |lia].
    set (A := afterFill _ k) in *. unfold afterFill.
    destruct (A - length (Marshal v) =? 0)%nat eqn:E.
    + apply Nat.eqb_eq in E. lia.
    + lia.
Qed.


Lemma replay_logged value st :
  logged unicodeUpper value = true →
  ∃ (v0 : Value) (args : list Value) (h : handler),
    array value = v0 :: args ∧
    Handlers rangeOrder !! ToUpper unicodeUpper (bulk v0) = Some h ∧
    (h = set ∨ h = hset) ∧
    replay rangeOrder unicodeUpper value st = Ret (h args st).2.
Proof.
  unfold logged, replay. intros [_ H]%andb_true_iff.
  destruct (array value) as [|v0 args]; [done|]. cbv zeta in *.
  exists v0, args.
  destruct (String.eqb_spec (ToUpper unicodeUpper (bulk v0)) "SET") as [->|_].
  { exists set. split; [done|]. split; [reflexivity|].
    split; [by left|reflexivity]. }
  destruct (String.eqb_spec (ToUpper unicodeUpper (bulk v0)) "HSET") as [->|_];
    [|done].
  exists hset. split; [done|]. split; [reflexivity|].
  split; [by right|reflexivity].
Qed.

Lemma handle_store value srv :
  isDEL unicodeUpper value = false →
  store (handle rangeOrder unicodeUpper value srv) =
  if logged unicodeUpper value
  then match replay rangeOrder unicodeUpper value (store srv) with
       | Ret st' => st'
       | Panicked => store srv
       end
  else store srv.
Proof.
  unfold handle, logged, isDEL, replay.
  destruct (typ value =? "array")%string; [|done]. cbn [negb andb].
  destruct (array value) as [|v0 args]; [done|]. cbv zeta.
  set (c := ToUpper unicodeUpper (bulk v0)). intros HD.
  destruct (Handlers rangeOrder !! c) as [h|] eqn:E.
  - destruct (Handlers_lookup c h E)
      as [[-> ->]|[[-> ->]|[[-> ->]|[[-> ->]|[[-> ->]|[[-> ->]|[-> ->]]]]]]];
      cbn [String.eqb Ascii.eqb Bool.eqb orb] in *; try discriminate.
    + by destruct args.
    + by destruct (set args (store srv)).
    + destruct args as [|a0 [|a1 args]]; try done.
      cbn [get]. by destruct (SETs (store srv) !! bulk a0).
    + by destruct (hset args (store srv)).
    + destruct args as [|a0 [|a1 [|a2 args]]]; try done.
      cbn [hget].
      by destruct (default ∅ (HSETs (store srv) !! bulk a0) !! bulk a1).
    + destruct args as [|a0 [|a1 args]]; try done.
      cbn [hgetall]. by destruct (HSETs (store srv) !! bulk a0).
  - destruct (String.eqb_spec c "SET") as [Ec|_].
    { rewrite Ec in E. discriminate. }
    destruct (String.eqb_spec c "HSET") as [Ec|_]; [|done].
    rewrite Ec in E. discriminate.
Qed.

Lemma serve_store values :
  ∀ srv,
    Forall (λ v, isDEL unicodeUpper v = false) values →
    foldOutcome (replay rangeOrder unicodeUpper)
                (filter (λ v, logged unicodeUpper v = true) values)
                (store srv)
    = Ret (store (serve rangeOrder unicodeUpper values srv)).
Proof.
  induction values as [|v vs IH]; intros srv Hvs; [done|].
  apply Forall_cons_1 in Hvs as [Hv Hvs].
  unfold serve in *. cbn [fold_left]. rewrite <- (IH _ Hvs).
  rewrite (handle_store v srv Hv), filter_cons.
  destruct (logged unicodeUpper v) eqn:El.
  - rewrite decide_True by done. cbn [foldOutcome].
    destruct (replay_logged v (store srv) El) as (v0 & args & h & _ & _ & _ & ->).
    done.
  - by rewrite decide_False by done.
Qed.

End Session.

(** X18: what [Write] wrote, [Read] hands back: when trees of BulkString
    and Array nodes are written one after another into an empty file that
    stays within the buffer of the reader, [Read] calls [fn] on exactly
    these values, in the order they were written, and returns a nil
    error, unless [fn] panics on the way. *)
Theorem Aof_Read_after_Write {S : Type} (fn : Value → S → outcome S)
                             (vs : list Value) (st : S) :
  forallb (λ v, bulkArrayTree v && goSized v) vs = true →
  (length (fold_left Aof.Write vs []) ≤ bufSize)%nat →
  Aof.Read fn (fold_left Aof.Write vs []) st
  = Some (match foldOutcome fn vs st with
          | Ret st' => Ret (None, st')
          | Panicked => Panicked
          end).
Proof.
  rewrite fold_Write. cbn [app]. intros Hvs Hb. unfold Aof.Read, NewResp.
  apply Read_loop_written.
  - apply Forall_forall. intros v Hv%list_elem_of_In.
    rewrite forallb_forall in Hvs. apply Hvs in Hv.
    by apply andb_true_iff in Hv.
  - unfold afterFill. cbn [Nat.eqb]. lia.
  - lia.
Qed.

Lemma Aof_Read_after_Write_witness :
  let vs := [SET_a_1; HSET_h_f_2; DEL_a] in
  let count (v : Value) (n : nat) : outcome nat := Ret (S n) in
  Aof.Read count (fold_left Aof.Write vs []) 0%nat = Some (Ret (None, 3%nat)).
Proof.
  intros vs count.
  refine (Aof_Read_after_Write count vs 0%nat _ _).
  - vm_compute. reflexivity.
  - apply Nat.leb_le. vm_compute. reflexivity.
Defined.

(** X19: recovery.  When no request of a session is a DEL, the requests
    that are written to the file are trees of BulkString and Array nodes,
    and the file stays within the buffer of the reader, then replaying the
    file of the session from the empty maps ends without error in the
    very maps the session ended in. *)
Theorem replay_restores_store
    (rangeOrder : gmap string string → list (string * string))
    (unicodeUpper : string → string) (values : list Value) :
  let srv := serve rangeOrder unicodeUpper values (mkServer emptyStore [] []) in
  forallb (replayable unicodeUpper) values = true →
  (length (aof srv) ≤ bufSize)%nat →
  startup rangeOrder unicodeUpper (aof srv) = Some (Ret (None, store srv)).
Proof.
  intros srv Hvs Hb. unfold srv in *. clear srv.
  rewrite forallb_forall in Hvs.
  rewrite serve_aof in Hb |- *. cbn [aof app] in Hb |- *.
  unfold startup, Aof.Read, NewResp.
  rewrite Read_loop_written.
  - pose proof (serve_store rangeOrder unicodeUpper values
                  (mkServer emptyStore [] [])) as E.
    cbn [store] in E. rewrite E; [done|].
    apply Forall_forall. intros v Hv%list_elem_of_In%Hvs.
    unfold replayable in Hv. apply andb_true_iff in Hv as [Hv _].
    by destruct (isDEL unicodeUpper v).
  - apply Forall_forall. intros v [Hl Hv%list_elem_of_In%Hvs]%list_elem_of_filter.
    unfold replayable in Hv. apply andb_true_iff in Hv as [_ Hv].
    rewrite Hl in Hv. cbn [negb orb] in Hv. by apply andb_true_iff in Hv.
  - unfold afterFill. cbn [Nat.eqb]. lia.
  - lia.
Qed.

Lemma replay_restores_store_witness :
  let values := [arrayV [bulkV "set"; bulkV "a"; bulkV "1"];
                 arrayV [bulkV "GET"; bulkV "a"];
                 HSET_h_f_2; arrayV [bulkV "nosuch"]; SET_a_3;
                 arrayV [bulkV "SET"; bulkV "a"]] in
  let srv := serve map_to_list id values (mkServer emptyStore [] []) in
  startup map_to_list id (aof srv) = Some (Ret (None, store srv)).
Proof.
  intros values srv.
  refine (replay_restores_store map_to_list id values _ _).
  - vm_compute. reflexivity.
  - apply Nat.leb_le. vm_compute. reflexivity.
Defined.




(** ** Invariants of the store *)

Lemma handler_keeps_hashesNonEmpty
    (rangeOrder : gmap string string → list (string * string))
    c (h : handler) args st :
  Handlers rangeOrder !! c = Some h →
  hashesNonEmpty st → hashesNonEmpty (h args st).2.
Proof.
  intros E Hst. destruct (Handlers_lookup rangeOrder c h E)
    as [[-> ->]|[[-> ->]|[[-> ->]|[[-> ->]|[[-> ->]|[[-> ->]|[-> ->]]]]]]].
  - by destruct args.
  - by destruct args as [|a0 [|a1 [|a2 args]]].
  - destruct args as [|a0 [|a1 args]]; try done.
    cbn [get]. by destruct (SETs st !! bulk a0).
  - destruct args as [|a0 [|a1 [|a2 [|a3 args]]]]; try done.
    cbn [hset snd]. intros k m. cbn [HSETs].
    set (H1 := match HSETs st !! bulk a0 with
               | None => <[bulk a0 := ∅]> (HSETs st)
               | Some _ => HSETs st
               end).
    destruct (decide (k = bulk a0)) as [->|Hk].
    + rewrite (lookup_insert_eq H1). intros [= <-]. apply insert_non_empty.
    + rewrite (lookup_insert_ne H1) by done. unfold H1.
      destruct (HSETs st !! bulk a0); [apply Hst|].
      rewrite lookup_insert_ne by done. apply Hst.
  - destruct args as [|a0 [|a1 [|a2 args]]]; try done.
    cbn [hget]. by destruct (default ∅ (HSETs st !! bulk a0) !! bulk a1).
  - destruct args as [|a0 [|a1 args]]; try done.
    cbn [hgetall]. by destruct (HSETs st !! bulk a0).
  - unfold del. destruct (length args <? 1)%nat; [done|].
    destruct (del_loop_spec args st 0)
      as (st' & n & -> & _ & _ & _ & _ & _ & HH2 & _).
    cbn [snd]. intros k m Hm.
    destruct (HH2 k) as [E'|E']; rewrite E' in Hm; [done|by eapply Hst].
Qed.

Lemma Read_loop_invariant {S : Type} (P : S → Prop)
                          (fn : Value → S → outcome S) fuel :
  (∀ v st st', P st → fn v st = Ret st' → P st') →
  ∀ r st e st',
    P st → Aof.Read_loop fuel fn r st = Some (Ret (e, st')) → P st'.
Proof.
  intros Hfn. induction fuel as [|fuel IH]; intros r st e st' Hst;
    [discriminate|].
  cbn [Aof.Read_loop].
  destruct (decode r) as [[value r1|v [|en]|]|]; try discriminate.
  - destruct (fn value st) as [st1|] eqn:E; [|discriminate].
    apply IH. by eapply Hfn.
  - by intros [= _ <-].
  - by intros [= _ <-].
Qed.

(** X21: no hash of the store is ever empty: the maps [main] replays from
    any file whatever have none, and a run of the request loop on any
    requests whatever adds none. *)
Theorem hashes_never_empty
    (rangeOrder : gmap string string → list (string * string))
    (unicodeUpper : string → string) :
  (∀ file e st,
     startup rangeOrder unicodeUpper file = Some (Ret (e, st)) →
     hashesNonEmpty st) ∧
  (∀ values srv,
     hashesNonEmpty (store srv) →
     hashesNonEmpty (store (serve rangeOrder unicodeUpper values srv))).
Proof.
  split.
  - intros file e st. unfold startup, Aof.Read.
    apply (Read_loop_invariant hashesNonEmpty); [|done].
    intros v st0 st1 H0. unfold replay.
    destruct (array v) as [|v0 args]; [discriminate|]. cbv zeta.
    destruct (Handlers rangeOrder !! ToUpper unicodeUpper (bulk v0))
      as [h|] eqn:E; intros [= <-]; [|done].
    by eapply handler_keeps_hashesNonEmpty.
  - intros values. induction values as [|v vs IH]; intros srv Hs; [done|].
    unfold serve in *. cbn [fold_left]. apply IH.
    unfold handle. destruct (negb _); [done|].
    destruct (array v) as [|v0 args]; [done|]. cbv zeta.
    destruct (Handlers rangeOrder !! ToUpper unicodeUpper (bulk v0))
      as [h|] eqn:E; [|done].
    pose proof (handler_keeps_hashesNonEmpty rangeOrder _ h args (store srv)
                  E Hs) as Hh.
    by destruct (h args (store srv)).
Qed.

Lemma hashes_never_empty_witness :
  let st := mkStore ∅ (<["h" := <["f" := "2"]> ∅]> ∅) in
  (startup map_to_list id (Marshal HSET_h_f_2) = Some (Ret (None, st)) ∧
   hashesNonEmpty st) ∧
  hashesNonEmpty emptyStore ∧
  hashesNonEmpty
    (store (serve map_to_list id [HSET_h_f_2; arrayV [bulkV "DEL"; bulkV "h"]]
                  (mkServer emptyStore [] []))).
Proof.
  intros st.
  assert (E : startup map_to_list id (Marshal HSET_h_f_2)
              = Some (Ret (None, st))) by (vm_compute; reflexivity).
  assert (H : hashesNonEmpty emptyStore) by (intros h m Hm; done).
  split; [split; [exact E|]|split; [exact H|]].
  - exact (proj1 (hashes_never_empty map_to_list id) _ _ _ E).
  - exact (proj2 (hashes_never_empty map_to_list id) _
             (mkServer emptyStore [] []) H).
Defined.

(** ** DEL and the reads that follow *)

(** X22: after a DEL, GET of any key the DEL named returns Null. *)
Theorem get_after_del (a : Value) (args : list Value) (st : Store) :
  bulk a ∈ keysOf args → (get [a] (del args st).2).1 = nullV.
Proof.
  intros Ha. unfold del.
  destruct args as [|a0 args]; [by apply elem_of_nil in Ha|].
  cbn [length Nat.ltb Nat.leb].
  destruct (del_loop_spec (a0 :: args) st 0)
    as (st' & n & -> & _ & HS1 & _).
  cbn [snd get]. by rewrite (HS1 _ Ha).
Qed.

Lemma get_after_del_witness :
  bulk (bulkV "k") ∈ keysOf [bulkV "j"; bulkV "k"] ∧
  (get [bulkV "k"] (del [bulkV "j"; bulkV "k"] both_k).2).1 = nullV.
Proof.
  assert (H : bulk (bulkV "k") ∈ keysOf [bulkV "j"; bulkV "k"])
    by (cbn; set_solver).
  split; [exact H|].
  exact (get_after_del (bulkV "k") [bulkV "j"; bulkV "k"] both_k H).
Defined.

(** X23: a DEL that names a key twice removes it from the scalars and
    from the hashes, so that GET and HGETALL of the key return Null. *)
Theorem del_twice_removes_both
    (rangeOrder : gmap string string → list (string * string))
    (a : Value) (args : list Value) (st : Store) :
  bulk a ∈ keysOf args →
  let st' := (del (a :: args) st).2 in
  (get [a] st').1 = nullV ∧ (hgetall rangeOrder [a] st').1 = nullV.
Proof.
  intros Ha st'. unfold st', del. cbn [length Nat.ltb Nat.leb del_loop].
  set (k := bulk a) in *.
  assert (Hnext : ∀ st1 c, SETs st1 !! k = None →
            SETs (del_loop args st1 c).1 !! k = None ∧
            HSETs (del_loop args st1 c).1 !! k = None).
  { intros st1 c H1.
    destruct (del_loop_spec args st1 c)
      as (st2 & n & -> & _ & _ & _ & HS3 & _ & _ & HH3).
    cbn [fst]. split; [by apply HS3|by apply HH3]. }
  assert (Hboth : ∀ r : Store * Z,
            SETs r.1 !! k = None ∧ HSETs r.1 !! k = None →
            (get [a] (let '(st2, n) := r in (stringV (Itoa n), st2)).2).1 = nullV ∧
            (hgetall rangeOrder [a]
               (let '(st2, n) := r in (stringV (Itoa n), st2)).2).1 = nullV).
  { intros [st2 n] [H1 H2]. cbn [fst snd get hgetall] in *. fold k.
    by rewrite H1, H2. }
  apply Hboth.
  destruct (SETs st !! k) eqn:ES; [|destruct (HSETs st !! k) eqn:EH].
  - apply Hnext. cbn [SETs]. apply lookup_delete_eq.
  - by apply Hnext.
  - by apply Hnext.
Qed.

Lemma del_twice_removes_both_witness :
  bulk (bulkV "k") ∈ keysOf [bulkV "k"] ∧
  (get [bulkV "k"] (del [bulkV "k"; bulkV "k"] both_k).2).1 = nullV ∧
  (hgetall map_to_list [bulkV "k"] (del [bulkV "k"; bulkV "k"] both_k).2).1
    = nullV.
Proof.
  assert (H : bulk (bulkV "k") ∈ keysOf [bulkV "k"])
    by (cbn; set_solver).
  split; [exact H|].
  exact (del_twice_removes_both map_to_list (bulkV "k") [bulkV "k"] both_k H).
Defined.

(** ** Input that is cut short *)




Lemma decode_all_buffered s :
  (length s ≤ bufSize)%nat →
  decode (mkReader s (length s)) = decode (NewResp s).
Proof.
  intros Hs. destruct s as [|t s]; [reflexivity|].
  unfold decode, NewResp, fuel_for. cbn [stream buffered].
  replace (2 * length (t :: s) + 2)%nat
    with (S (2 * length (t :: s) + 1)) by lia.
  cbn [Read]. unfold afterFill. cbn [length Nat.eqb] in *.
  by rewrite Nat.min_r by done.
Qed.

Lemma Read_loop_written_tail {S : Type} (fn : Value → S → outcome S)
                             tail v0 vs :
  decode (NewResp tail) = Some (Fail v0 EOF) →
  ∀ fuel st k,
    Forall (λ v, bulkArrayTree v = true ∧ goSized v = true) vs →
    (length (flat_map Marshal vs ++ tail) ≤ bufSize)%nat →
    k = 0%nat ∨ k = length (flat_map Marshal vs ++ tail) →
    (length (flat_map Marshal vs ++ tail) < fuel)%nat →
    Aof.Read_loop fuel fn (mkReader (flat_map Marshal vs ++ tail) k) st
    = Some (match foldOutcome fn vs st with
            | Ret st' => Ret (None, st')
            | Panicked => Panicked
            end).
Proof.
  intros Htail. induction vs as [|v vs IH]; intros fuel st k Hvs Hb Hk Hf.
  - cbn [flat_map app] in *. destruct fuel as [|fuel]; [lia|].
    cbn [Aof.Read_loop foldOutcome].
    destruct Hk as [->| ->]; [|rewrite decode_all_buffered by done];
      change (mkReader tail 0) with (NewResp tail); by rewrite Htail.
  - apply Forall_cons_1 in Hvs as [[Ht Hs] Hvs].
    cbn [flat_map] in *. rewrite <- app_assoc in *.
    rewrite length_app in Hb, Hf, Hk.
    destruct fuel as [|fuel]; [lia|].
    pose proof (need_le_Marshal v Ht) as Hn. pose proof (need_ge v) as Hn2.
    assert (HA : afterFill (Marshal v ++ flat_map Marshal vs ++ tail) k
                 = (length (Marshal v)
                    + length (flat_map Marshal vs ++ tail))%nat).
    { unfold afterFill. rewrite length_app.
      destruct Hk as [->| ->]; [cbn [Nat.eqb]; lia|].
      destruct (_ =? 0)%nat eqn:E; [apply Nat.eqb_eq in E; lia|done]. }
    cbn [Aof.Read_loop]. unfold decode. cbn [stream buffered].
    rewrite (Read_tree v Ht Hs)
      by (unfold fuel_for; rewrite ?length_app, ?HA; lia).
    rewrite HA. cbn [foldOutcome]. destruct (fn v st) as [st'|]; [|done].
    apply IH; [done|lia|right; lia|lia].
Qed.

(** X25: a file that ends in bytes which, read on their own, run into the
    end of the file (a record cut short) is replayed as the file without
    these bytes: [fn] is called on the complete records before them, in
    order, and the error returned is nil. *)
Theorem Aof_Read_ignores_cut_tail {S : Type} (fn : Value → S → outcome S)
    (vs : list Value) (tail : list byte) (v0 : Value) (st : S) :
  forallb (λ v, bulkArrayTree v && goSized v) vs = true →
  (length (fold_left Aof.Write vs [] ++ tail) ≤ bufSize)%nat →
  decode (NewResp tail) = Some (Fail v0 EOF) →
  Aof.Read fn (fold_left Aof.Write vs [] ++ tail) st
  = Some (match foldOutcome fn vs st with
          | Ret st' => Ret (None, st')
          | Panicked => Panicked
          end).
Proof.
  rewrite fold_Write. cbn [app]. intros Hvs Hb Htail.
  unfold Aof.Read, NewResp.
  eapply Read_loop_written_tail; [exact Htail| |done|by left|lia].
  apply Forall_forall. intros v Hv%list_elem_of_In.
  rewrite forallb_forall in Hvs. apply Hvs in Hv.
  by apply andb_true_iff in Hv.
Qed.

Lemma Aof_Read_ignores_cut_tail_witness :
  let vs := [SET_a_1; HSET_h_f_2] in
  let tail := ARRAY :: bytes "3" ++ CR :: LF :: Marshal (bulkV "SET") in
  let count (v : Value) (n : nat) : outcome nat := Ret (S n) in
  Aof.Read count (fold_left Aof.Write vs [] ++ tail) 0%nat
  = Some (Ret (None, 2%nat)).
Proof.
  intros vs tail count.
  refine (Aof_Read_ignores_cut_tail count vs tail (arrayV [bulkV "SET"])
            0%nat _ _ _).
  - vm_compute. reflexivity.
  - apply Nat.leb_le. vm_compute. reflexivity.
  - vm_compute. reflexivity.
Defined.
